(** * A shallow embedding of the Go package [set] (file set.go)

    [Set[T]] is a struct with one field, a Go map [m map[T]bool].  A Go map
    is a reference: copying the struct copies the reference, not the table
    behind it.  Every method of [Set[T]] has a value receiver, so a method
    works on a copy of the struct that shares the table with the caller's
    copy.  The embedding therefore keeps the tables in a store and passes
    the struct by value. *)

From Stdlib Require Import Ascii.
From stdpp Require Import gmap strings list fin_maps pretty.

Module set.

(** ** Host values *)

(** The zero value of a Go type ([0] for integers, the empty string for
    strings, the nil interface, ...). *)
Class GoZero (T : Type) := go_zero : T.

(** [T comparable].  A value of [T] stands for a Go value up to [==]: Go
    values that [==] identifies (the two zeros of a float type) are one
    value here, so that on keys that equal themselves [==] is Rocq's
    equality.  Two things are left of Go's [==] and of the hashing that a
    map does with it:
    - an interface value whose dynamic type is not comparable (a slice, a
      map, a function) satisfies [comparable] but cannot be hashed: a map
      operation on such a key panics, and [key_panic] gives the type that
      the message names;
    - a key need not equal itself: a NaN does not, alone or inside a
      struct, an array or an interface.  [key_eq_self k] is [k == k].
    The zero value of every type can be hashed. *)
Class Comparable (T : Type) `{!GoZero T} := {
  key_panic : T → option string;
  key_eq_self : T → bool;
  go_zero_hashable : key_panic go_zero = None
}.

(** A Go [error] value, identified with its message. *)
Definition error := string.

(** The two results of a call that returns [(value, error)]. *)
Inductive result (A : Type) : Type :=
  | Success (a : A)
  | Failure (err : error).
Arguments Success {A} a.
Arguments Failure {A} err.

(** The functions of [encoding/json] that the package calls, at the types
    it calls them: [json.Marshal] on a [[]T] and [json.Unmarshal] into a
    [*[]T].  The slice that the package marshals comes from [make] and is
    never nil, and of the slice that it unmarshals into only the elements
    are used, so a list stands for both. *)
Class JSON (T : Type) := {
  json_Marshal : list T → result string;
  json_Unmarshal : string → result (list T)
}.

(** ** Map tables *)

(** The table behind a [map[T]bool] (the runtime's [hmap]).  A key that equals itself has at most
    one entry, found by that key: these are the [entries].  An assignment
    with a key that does not equal itself finds no entry and makes a new
    one each time, which no later lookup or [delete] finds: these are the
    [strays], and they count for [len] and [range]. *)
Record hmap (T : Type) `{Countable T} : Type := Hmap {
  entries : gmap T bool;
  strays : list (T * bool)
}.
Arguments Hmap {T _ _} entries strays.
Arguments entries {T _ _} _.
Arguments strays {T _ _} _.

Section Table.
Context {T : Type} `{Countable T}.

#[export] Instance hmap_empty : Empty (hmap T) := Hmap ∅ [].

(** A table without strays. *)
Definition regular (mp : gmap T bool) : hmap T := Hmap mp [].

(** The keys of a table, one for each entry. *)
Definition t_keys (tb : hmap T) : list T :=
  (map_to_list (entries tb)).*1 ++ (strays tb).*1.

Definition t_len (tb : hmap T) : nat :=
  size (entries tb) + length (strays tb).

Context `{!GoZero T} `{!Comparable T}.

(** The value that a lookup finds, [false] when it finds none. *)
Definition t_index (k : T) (tb : hmap T) : bool :=
  if key_eq_self k then default false (entries tb !! k) else false.

Definition t_assign (k : T) (b : bool) (tb : hmap T) : hmap T :=
  if key_eq_self k
  then Hmap (<[k := b]> (entries tb)) (strays tb)
  else Hmap (entries tb) (strays tb ++ [(k, b)]).

Definition t_delete (k : T) (tb : hmap T) : hmap T :=
  if key_eq_self k
  then Hmap (delete k (entries tb)) (strays tb)
  else tb.

End Table.

(** The order in which [for t := range m] visits the keys of a map.  Go
    leaves it unspecified; all that is known is that each entry is visited
    once.  No operation of the package ranges twice over a map, so taking
    the order as a function of the table loses nothing. *)
Class MapRange (T : Type) `{Countable T} := {
  range_keys : hmap T → list T;
  range_keys_perm : ∀ tb : hmap T, range_keys tb ≡ₚ t_keys tb
}.

(** ** The store of map tables *)

Abbreviation loc := positive.

(** One table per [make(map[T]bool)] that has run. *)
Abbreviation heap T := (gmap loc (hmap T)).

Section Store.
Context {T : Type} `{Countable T}.

(** A call either returns a value and the store it leaves, or panics and
    leaves the store that a caller who recovers finds. *)
Inductive outcome (A : Type) : Type :=
  | Ok (a : A) (h : heap T)
  | Panic (msg : string) (h : heap T).
Arguments Ok {A} a h.
Arguments Panic {A} msg h.

Definition M (A : Type) : Type := heap T → outcome A.

Definition ret {A} (a : A) : M A := λ h, Ok a h.

Definition bind {A B} (c : M A) (k : A → M B) : M B :=
  λ h, match c h with
       | Ok a h' => k a h'
       | Panic msg h' => Panic msg h'
       end.

End Store.

Arguments outcome T {_ _} A.
Arguments M T {_ _} A.
Arguments Ok {T _ _ A} a h.
Arguments Panic {T _ _ A} msg h.

#[export] Instance M_ret {T} `{Countable T} : MRet (M T) := @ret T _ _.
#[export] Instance M_bind {T} `{Countable T} : MBind (M T) :=
  λ A B k c, bind c k.

(** The messages of the two panics of the map runtime. *)
Definition nil_map_msg : string := "assignment to entry in nil map".

Definition unhashable_msg (ty : string) : string :=
  "runtime error: hash of unhashable type " +:+ ty.

Section MapOps.
Context {T : Type} `{Countable T} `{!GoZero T} `{!Comparable T}.

(** A map value is a reference to a table, or [nil]. *)
Definition mapref := option loc.

(** The table a map value denotes.  Reading a [nil] map behaves like
    reading an empty one.  A reference is always one that [make] returned,
    so its table is in the store; for a reference with no table the
    definitions below read an empty table and write nothing. *)
Definition table (h : heap T) (r : mapref) : hmap T :=
  match r with
  | None => ∅
  | Some l => default ∅ (h !! l)
  end.

(** [make(map[T]bool)] *)
Definition make_map : M T mapref :=
  λ h, let l := fresh (dom h) in Ok (Some l) (<[l := ∅]> h).

(** [len(r)], a Go [int] that is never negative. *)
Definition map_len (r : mapref) : M T nat :=
  λ h, Ok (t_len (table h r)) h.

(** [r[k]] as an expression: the stored flag, [false] when no entry is
    found.  The key is hashed also when the map is nil or empty. *)
Definition map_index (r : mapref) (k : T) : M T bool :=
  λ h, match key_panic k with
       | Some ty => Panic (unhashable_msg ty) h
       | None => Ok (t_index k (table h r)) h
       end.

(** [r[k] = b].  The runtime tests for the nil map before it hashes the
    key. *)
Definition map_assign (r : mapref) (k : T) (b : bool) : M T unit :=
  λ h, match r with
       | None => Panic nil_map_msg h
       | Some l =>
           match key_panic k with
           | Some ty => Panic (unhashable_msg ty) h
           | None => Ok () (alter (t_assign k b) l h)
           end
       end.

(** [delete(r, k)].  The key is hashed also when the map is nil or
    empty. *)
Definition map_delete (r : mapref) (k : T) : M T unit :=
  λ h, match key_panic k with
       | Some ty => Panic (unhashable_msg ty) h
       | None =>
           match r with
           | None => Ok () h
           | Some l => Ok () (alter (t_delete k) l h)
           end
       end.

(** The keys [for t := range r] visits, in the order it visits them. *)
Definition map_range `{!MapRange T} (r : mapref) : M T (list T) :=
  λ h, Ok (range_keys (table h r)) h.

End MapOps.

(** ** The package *)

(** [type Set[T comparable] struct { m map[T]bool }].  The struct holds the
    reference only; [T] is the type of the keys of the table behind it. *)
Record Set_ (T : Type) : Type := mkSet { m : mapref }.
Arguments mkSet {T} m.
Arguments m {T} s.

Section Package.
Context {T : Type} `{Countable T} `{!GoZero T} `{!Comparable T}.
Implicit Types s : Set_ T.

(** The zero value [Set[T]{}]: its map is [nil]. *)
Definition zero_Set : Set_ T := {| m := None |}.

Definition Empty : M T (Set_ T) :=
  r ← make_map;
  mret {| m := r |}.

Fixpoint Append s (values : list T) : M T unit :=
  match values with
  | [] => mret ()
  | v :: values => map_assign (m s) v true ;; Append s values
  end.

Definition Of (values : list T) : M T (Set_ T) :=
  s ← Empty;
  Append s values;;
  mret s.

Definition Len s : M T nat := map_len (m s).

Definition Contains s (val : T) : M T bool := map_index (m s) val.

Fixpoint Delete s (values : list T) : M T unit :=
  match values with
  | [] => mret ()
  | v :: values => map_delete (m s) v ;; Delete s values
  end.

(** [s.m = make(map[T]bool)] assigns to the receiver, which is the callee's
    own copy of the struct; the copy is dropped when the method returns. *)
Definition Clear s : M T unit :=
  r ← make_map;
  let s : Set_ T := {| m := r |} in
  mret ().

(** [make([]T, len(s.m))] is a slice of [len(s.m)] zero values, and
    [append] adds after them. *)
Definition Slice `{!MapRange T} s : M T (list T) :=
  n ← map_len (m s);
  let values := replicate n go_zero in
  ks ← map_range (m s);
  mret (foldl (λ values t, values ++ [t]) values ks).

Definition MarshalJSON `{!MapRange T} `{!JSON T} s : M T (result string) :=
  values ← Slice s;
  mret (json_Marshal values).

(** The result is the Go [error]: [None] is [nil]. *)
Definition UnmarshalJSON `{!JSON T} s (data : string)
    : M T (option error) :=
  Clear s;;
  match json_Unmarshal data with
  | Failure err => mret (Some err)
  | Success values =>
      Append s values;;
      mret None
  end.

End Package.

(** ** Views of a store *)

Section Views.
Context {T : Type} `{Countable T} `{!GoZero T} `{!Comparable T}.
Implicit Types (h : heap T) (s : Set_ T) (values : list T) (tb : hmap T).

(** The keys in the map of [s], one for each entry, and the set of them:
    the elements of [s]. *)
Definition keys h s : list T := t_keys (table h (m s)).

Definition elems_of tb : gset T := list_to_set (t_keys tb).

Definition elems h s : gset T := elems_of (table h (m s)).

(** [s] holds a reference that some [make] returned. *)
Definition live h s : Prop :=
  match m s with
  | Some l => is_Some (h !! l)
  | None => False
  end.

(** A key that a map can hash, and one that moreover equals itself. *)
Definition hashable (k : T) : Prop := key_panic k = None.

Definition ordinary (k : T) : Prop := key_panic k = None ∧ key_eq_self k = true.

(** The type that the panic of a loop over [values] names: that of the
    first value that cannot be hashed. *)
Definition first_panic values : option string := head (omap key_panic values).

(** The values of a list that a loop over it reaches before it panics:
    those before the first one that cannot be hashed. *)
Fixpoint hashed values : list T :=
  match values with
  | [] => []
  | v :: values =>
      match key_panic v with
      | Some _ => []
      | None => v :: hashed values
      end
  end.

(** The values of a list that equal themselves, and the others. *)
Definition selfs values : list T := filter (λ v, key_eq_self v = true) values.

Definition nans values : list T := filter (λ v, key_eq_self v = false) values.

(** The number of values of a list that [==] tells apart: a value that
    does not equal itself differs from every value, itself included. *)
Definition go_distinct values : nat :=
  length (remove_dups (selfs values)) + length (nans values).

(** What every table that the package fills satisfies: the flags are
    [true], the keys can be hashed, and a key is a stray exactly when it
    does not equal itself. *)
Definition hmap_ok tb : Prop :=
  map_Forall (λ k b, b = true ∧ ordinary k) (entries tb) ∧
  Forall (λ kb, kb.2 = true ∧ key_panic kb.1 = None ∧ key_eq_self kb.1 = false)
    (strays tb).

Definition store_ok h : Prop := map_Forall (λ _ tb, hmap_ok tb) h.

(** The effect on one table of the assignments of [Append] and of the
    deletions of [Delete]. *)
Definition add_all values tb : hmap T :=
  foldl (λ tb v, t_assign v true tb) tb values.

Definition delete_all values tb : hmap T :=
  foldl (λ tb v, t_delete v tb) tb values.

(** The same on the entries alone. *)
Definition insert_all values (mp : gmap T bool) : gmap T bool :=
  foldl (λ mp v, <[v := true]> mp) mp values.

Definition remove_all values (mp : gmap T bool) : gmap T bool :=
  foldl (λ mp v, delete v mp) mp values.

(** A call that returns, and one that panics. *)
Definition returns {A} (c : M T A) h : Prop := ∃ a h', c h = Ok a h'.

Definition panics {A} (c : M T A) h : Prop := ∃ msg h', c h = Panic msg h'.

(** The store that an outcome leaves, be it a return or a panic. *)
Definition left_by {A} (o : outcome T A) (h' : heap T) : Prop :=
  match o with
  | Ok _ h1 => h' = h1
  | Panic _ h1 => h' = h1
  end.

(** The calls of a client that can change the store, and the stores a
    client can produce with them, starting from no table at all; a client
    can recover from a panic and go on with the store that the panic
    left. *)
Inductive call : Type :=
  | call_Empty
  | call_Of (values : list T)
  | call_Append (s : Set_ T) (values : list T)
  | call_Delete (s : Set_ T) (values : list T)
  | call_Clear (s : Set_ T)
  | call_UnmarshalJSON (s : Set_ T) (data : string).

Definition exec `{!JSON T} (c : call) : M T unit :=
  match c with
  | call_Empty => Empty ;; mret ()
  | call_Of values => Of values ;; mret ()
  | call_Append s values => Append s values
  | call_Delete s values => Delete s values
  | call_Clear s => Clear s
  | call_UnmarshalJSON s data => UnmarshalJSON s data ;; mret ()
  end.

Inductive reachable `{!JSON T} : heap T → Prop :=
  | reachable_init : reachable ∅
  | reachable_step h c h' :
      reachable h → exec c h = Ok () h' → reachable h'
  | reachable_recover h c msg h' :
      reachable h → exec c h = Panic msg h' → reachable h'.

End Views.

End set.

(** * The package at [T = int]

    Go's [int] as [Z] within the 64-bit range, maps ranged over in the
    order in which [t_keys] lists their keys, and [encoding/json]
    restricted to what it does for a [[]int]. *)

Module set_int.
Import set.

#[export] Instance int_zero : GoZero Z := 0%Z.

(** Every [int] can be hashed and equals itself. *)
#[export] Instance int_comparable : Comparable Z := {|
  key_panic _ := None;
  key_eq_self _ := true;
  go_zero_hashable := eq_refl
|}.

#[export] Instance int_range : MapRange Z := {|
  range_keys tb := t_keys tb;
  range_keys_perm tb := reflexivity _
|}.

(** ** [encoding/json] for a slice of [int]

    [json.Marshal] writes a non-nil [[]int] as the decimal numbers, comma
    separated, between brackets.  [json.Unmarshal] into a [*[]int] accepts
    the literal [null] (no values) and an array whose elements are integer
    literals in the range of [int] or [null] (which leaves the zero
    value), with JSON white space between the tokens; it rejects
    everything else. *)

Inductive token : Type :=
  | LBracket
  | RBracket
  | Comma
  | Word (w : string).

Definition is_space (c : ascii) : bool :=
  bool_decide (c ∈ [" "; "009"; "010"; "013"]%char).

Definition flush (w : string) (ts : list token) : list token :=
  match w with
  | EmptyString => ts
  | _ => Word w :: ts
  end.

(** Cuts the input into brackets, commas and the words between them. *)
Fixpoint scan (w : string) (data : string) : list token :=
  match data with
  | EmptyString => flush w []
  | String c data =>
      if is_space c then flush w (scan "" data)
      else if bool_decide (c = "["%char) then flush w (LBracket :: scan "" data)
      else if bool_decide (c = "]"%char) then flush w (RBracket :: scan "" data)
      else if bool_decide (c = ","%char) then flush w (Comma :: scan "" data)
      else scan (w +:+ String c "") data
  end.

Definition digit (c : ascii) : option Z :=
  let n := Z.of_nat (nat_of_ascii c) in
  if bool_decide (48 ≤ n ≤ 57)%Z then Some (n - 48)%Z else None.

Fixpoint digits (acc : Z) (w : string) : option Z :=
  match w with
  | EmptyString => Some acc
  | String c w => d ← digit c; digits (10 * acc + d)%Z w
  end.

(** A JSON integer part: ["0"], or digits that do not start with ["0"]. *)
Definition natural (w : string) : option Z :=
  match w with
  | EmptyString => None
  | String "0" EmptyString => Some 0%Z
  | String "0" _ => None
  | _ => digits 0 w
  end.

Definition integer (w : string) : option Z :=
  match w with
  | String "-" w => Z.opp <$> natural w
  | _ => natural w
  end.

Definition element (w : string) : option Z :=
  if bool_decide (w = "null") then Some 0%Z
  else
    n ← integer w;
    if bool_decide (- 2 ^ 63 ≤ n < 2 ^ 63)%Z then Some n else None.

(** The elements after a ["["] or a [","], up to the closing ["]"], which
    must end the input. *)
Fixpoint elements_of (ts : list token) : option (list Z) :=
  match ts with
  | [Word w; RBracket] => x ← element w; Some [x]
  | Word w :: Comma :: ts => x ← element w; xs ← elements_of ts; Some (x :: xs)
  | _ => None
  end.

Definition array (ts : list token) : option (list Z) :=
  match ts with
  | [Word "null"] => Some []
  | [LBracket; RBracket] => Some []
  | LBracket :: ts => elements_of ts
  | _ => None
  end.

(** One message stands for every error that [json.Unmarshal] reports. *)
Definition unmarshal_error : error :=
  "json: cannot unmarshal input into Go value of type []int".

#[export] Instance int_JSON : JSON Z := {|
  json_Marshal values :=
    Success ("[" +:+ String.concat "," (pretty <$> values) +:+ "]");
  json_Unmarshal data :=
    match array (scan "" data) with
    | Some values => Success values
    | None => Failure unmarshal_error
    end
|}.

Local Open Scope Z_scope.

(** ** A store with one set

    [s1] after [s1 := Of(1, 2, 2, 3)] in a program that has made no other
    map. *)

Definition s1 : Set_ Z := mkSet (Some 1%positive).

Definition h123 : heap Z :=
  {[ 1%positive := regular {[ 1 := true; 2 := true; 3 := true ]} ]}.

(** ** A store with two sets

    [s1] and [s2] after [s1 := Of(1); s2 := Empty()]. *)

Definition s2 : Set_ Z := mkSet (Some 2%positive).

Definition h_two : heap Z :=
  {[ 1%positive := regular {[ 1 := true ]}; 2%positive := ∅ ]}.

End set_int.

(** * The package at [T = any]

    Some of the dynamic values of a Go [any]: the nil interface, an [int],
    the [float64] NaN and a [[]int].  The NaN does not equal itself, and
    the slice, whose type is not comparable, cannot be hashed. *)

Module set_any.
Import set.

Inductive any : Type :=
  | any_nil
  | any_int (n : Z)
  | any_NaN
  | any_ints (l : list Z).

#[export] Instance any_eq_dec : EqDecision any.
Proof. solve_decision. Defined.

#[export] Instance any_countable : Countable any :=
  inj_countable'
    (λ x, match x with
          | any_nil => inl (inl ())
          | any_int n => inl (inr n)
          | any_NaN => inr (inl ())
          | any_ints l => inr (inr l)
          end)
    (λ y, match y with
          | inl (inl _) => any_nil
          | inl (inr n) => any_int n
          | inr (inl _) => any_NaN
          | inr (inr l) => any_ints l
          end)
    (λ x, match x with
          | any_nil | any_int _ | any_NaN | any_ints _ => eq_refl
          end).

#[export] Instance any_zero : GoZero any := any_nil.

#[export] Instance any_comparable : Comparable any := {|
  key_panic x := match x with any_ints _ => Some "[]int" | _ => None end;
  key_eq_self x := match x with any_NaN => false | _ => true end;
  go_zero_hashable := eq_refl
|}.

#[export] Instance any_range : MapRange any := {|
  range_keys tb := t_keys tb;
  range_keys_perm tb := reflexivity _
|}.

End set_any.

(** * Properties of the package *)

Import set.

(** ** Tables *)

Section Tables.
Context {T : Type} `{Countable T} `{!GoZero T} `{!Comparable T}.
Implicit Types (tb : hmap T) (mp : gmap T bool) (values : list T) (x k v : T).

Lemma list_to_set_map_keys mp :
  list_to_set (C:=gset T) (map_to_list mp).*1 = dom mp.
Proof.
  apply set_eq. intros x.
  rewrite elem_of_list_to_set, list_elem_of_fmap, elem_of_dom. split.
  - intros ([k b] & -> & Hkb%elem_of_map_to_list). by exists b.
  - intros [b Hb]. exists (x, b). by rewrite elem_of_map_to_list.
Qed.

Lemma elems_of_alt tb :
  elems_of tb = dom (entries tb) ∪ list_to_set (strays tb).*1.
Proof.
  unfold elems_of, t_keys. by rewrite list_to_set_app_L, list_to_set_map_keys.
Qed.

Lemma elems_of_empty : elems_of (T:=T) ∅ = ∅.
Proof. rewrite elems_of_alt. cbn. by rewrite dom_empty_L, (left_id_L ∅ (∪)). Qed.

Lemma t_len_empty : t_len (T:=T) ∅ = 0.
Proof. unfold t_len. cbn. by rewrite map_size_empty. Qed.

Lemma size_list_to_set_remove_dups values :
  size (list_to_set (C:=gset T) values) = length (remove_dups values).
Proof.
  rewrite <-(size_list_to_set (C:=gset T) (remove_dups values))
    by apply NoDup_remove_dups.
  f_equal. apply set_eq. intros x.
  by rewrite !elem_of_list_to_set, elem_of_remove_dups.
Qed.

Lemma length_remove_dups_le values : length (remove_dups values) ≤ length values.
Proof.
  induction values as [|v values IH]; cbn; [done|].
  destruct (decide_rel elem_of v values); cbn; lia.
Qed.

Lemma length_t_keys tb : length (t_keys tb) = t_len tb.
Proof.
  unfold t_keys, t_len.
  by rewrite length_app, !length_fmap, length_map_to_list.
Qed.

(** A table has at least as many entries as it has different keys, and
    none exactly when it has no key. *)
Lemma size_elems_of_le tb : size (elems_of tb) ≤ t_len tb.
Proof.
  unfold elems_of. rewrite size_list_to_set_remove_dups, <-length_t_keys.
  apply length_remove_dups_le.
Qed.

Lemma t_len_0 tb : t_len tb = 0 ↔ elems_of tb = ∅.
Proof.
  split.
  - intros Hlen. pose proof (size_elems_of_le tb).
    apply leibniz_equiv, size_empty_iff. lia.
  - rewrite elems_of_alt. intros [Hd Hs]%empty_union_L. unfold t_len.
    apply dom_empty_inv_L in Hd. rewrite Hd, map_size_empty.
    destruct (strays tb) as [|[a b] l]; [done|].
    exfalso. cbn in Hs. apply (not_elem_of_empty (C:=gset T) a).
    rewrite <-Hs. apply elem_of_union_l. by apply elem_of_singleton.
Qed.

Lemma elems_of_t_assign k b tb :
  elems_of (t_assign k b tb) = {[k]} ∪ elems_of tb.
Proof.
  rewrite !elems_of_alt. unfold t_assign. destruct (key_eq_self k); cbn.
  - by rewrite dom_insert_L, (assoc_L (∪)).
  - rewrite fmap_app, list_to_set_app_L. cbn.
    rewrite (right_id_L ∅ (∪)), (assoc_L (∪)), (comm_L (∪) _ {[k]}).
    by rewrite !(assoc_L (∪)), (comm_L (∪) {[k]}).
Qed.

Lemma elems_of_add_all values tb :
  elems_of (add_all values tb) = elems_of tb ∪ list_to_set values.
Proof.
  revert tb. induction values as [|v values IH]; intros tb; cbn.
  - by rewrite (right_id_L ∅ (∪)).
  - unfold add_all in IH. rewrite IH, elems_of_t_assign.
    by rewrite (comm_L (∪) {[v]} (elems_of tb)), (assoc_L (∪)).
Qed.

Lemma selfs_cons v values :
  selfs (v :: values) = if key_eq_self v then v :: selfs values else selfs values.
Proof.
  unfold selfs. rewrite filter_cons.
  destruct (key_eq_self v); [by rewrite decide_True|by rewrite decide_False].
Qed.

Lemma nans_cons v values :
  nans (v :: values) = if key_eq_self v then nans values else v :: nans values.
Proof.
  unfold nans. rewrite filter_cons.
  destruct (key_eq_self v); [by rewrite decide_False|by rewrite decide_True].
Qed.

Lemma add_all_alt values tb :
  add_all values tb =
    Hmap (insert_all (selfs values) (entries tb))
         (strays tb ++ ((λ v, (v, true)) <$> nans values)).
Proof.
  revert tb. induction values as [|v values IH]; intros [mp st].
  - cbn. by rewrite (right_id_L [] (++)).
  - change (add_all (v :: values) (Hmap mp st))
      with (add_all values (t_assign v true (Hmap mp st))).
    rewrite IH, selfs_cons, nans_cons. unfold t_assign.
    destruct (key_eq_self v); cbn [entries strays]; [done|].
    by rewrite fmap_cons, <-(assoc_L (++)).
Qed.

Lemma delete_all_alt values tb :
  delete_all values tb =
    Hmap (remove_all (selfs values) (entries tb)) (strays tb).
Proof.
  revert tb. induction values as [|v values IH]; intros [mp st]; [done|].
  change (delete_all (v :: values) (Hmap mp st))
    with (delete_all values (t_delete v (Hmap mp st))).
  rewrite IH, selfs_cons. unfold t_delete.
  by destruct (key_eq_self v).
Qed.

Lemma lookup_insert_all values mp k :
  insert_all values mp !! k = if decide (k ∈ values) then Some true else mp !! k.
Proof.
  revert mp. induction values as [|v values IH]; intros mp; cbn.
  - by rewrite decide_False by apply not_elem_of_nil.
  - unfold insert_all in IH. rewrite IH.
    destruct (decide (k ∈ values)) as [Hin|Hnin].
    + rewrite decide_True; [done|]. apply elem_of_cons. by right.
    + destruct (decide (k = v)) as [->|Hne].
      * rewrite lookup_insert_eq, decide_True; [done|].
        apply elem_of_cons. by left.
      * rewrite lookup_insert_ne by done. rewrite decide_False; [done|].
        rewrite elem_of_cons. by intros [?|?].
Qed.

Lemma lookup_remove_all values mp k :
  remove_all values mp !! k = if decide (k ∈ values) then None else mp !! k.
Proof.
  revert mp. induction values as [|v values IH]; intros mp; cbn.
  - by rewrite decide_False by apply not_elem_of_nil.
  - unfold remove_all in IH. rewrite IH.
    destruct (decide (k ∈ values)) as [Hin|Hnin].
    + rewrite decide_True; [done|]. apply elem_of_cons. by right.
    + destruct (decide (k = v)) as [->|Hne].
      * rewrite lookup_delete_eq, decide_True; [done|].
        apply elem_of_cons. by left.
      * rewrite lookup_delete_ne by done. rewrite decide_False; [done|].
        rewrite elem_of_cons. by intros [?|?].
Qed.

Lemma dom_insert_all values mp :
  dom (insert_all values mp) = dom mp ∪ list_to_set values.
Proof.
  revert mp. induction values as [|v values IH]; intros mp; cbn.
  - by rewrite (right_id_L ∅ (∪)).
  - unfold insert_all in IH. rewrite IH, dom_insert_L.
    by rewrite (comm_L (∪) {[v]} (dom mp)), (assoc_L (∪)).
Qed.

Lemma dom_remove_all values mp :
  dom (remove_all values mp) = dom mp ∖ list_to_set values.
Proof.
  revert mp. induction values as [|v values IH]; intros mp; cbn.
  - by rewrite difference_empty_L.
  - unfold remove_all in IH. rewrite IH, dom_delete_L.
    by rewrite difference_difference_l_L.
Qed.

Lemma selfs_all values :
  Forall (λ v, key_eq_self v = true) values →
  selfs values = values ∧ nans values = [].
Proof.
  induction 1 as [|v values Hv _ [IH1 IH2]]; [done|].
  by rewrite selfs_cons, nans_cons, Hv, IH1, IH2.
Qed.

Lemma t_index_empty k : t_index k (∅ : hmap T) = false.
Proof. unfold t_index. by destruct (key_eq_self k). Qed.

Lemma t_index_t_delete k tb : t_index k (t_delete k tb) = false.
Proof.
  unfold t_index, t_delete. destruct (key_eq_self k) eqn:Hk; [|done].
  cbn. by rewrite lookup_delete_eq.
Qed.


Lemma t_delete_absent k tb : k ∉ elems_of tb → t_delete k tb = tb.
Proof.
  rewrite elems_of_alt, not_elem_of_union. intros [Hk%not_elem_of_dom _].
  unfold t_delete. destruct (key_eq_self k); [|done].
  destruct tb as [mp st]. cbn in *. by rewrite delete_id.
Qed.

Lemma t_len_t_assign_stray k b tb :
  key_eq_self k = false → t_len (t_assign k b tb) = S (t_len tb).
Proof.
  intros Hk. unfold t_len, t_assign. rewrite Hk. cbn.
  rewrite length_app. cbn. lia.
Qed.

(** ** The table invariant *)

Lemma hmap_ok_empty : hmap_ok (T:=T) ∅.
Proof. split; [apply map_Forall_empty|apply Forall_nil_2]. Qed.

Lemma hmap_ok_t_assign k tb :
  key_panic k = None → hmap_ok tb → hmap_ok (t_assign k true tb).
Proof.
  intros Hk [He Hs]. unfold t_assign. destruct (key_eq_self k) eqn:Hself.
  - split; [|done]. cbn. by apply map_Forall_insert_2.
  - split; [done|]. cbn. apply Forall_app. split; [done|].
    by apply Forall_singleton.
Qed.

Lemma hmap_ok_t_delete k tb : hmap_ok tb → hmap_ok (t_delete k tb).
Proof.
  intros [He Hs]. unfold t_delete. destruct (key_eq_self k); [|done].
  split; [|done]. cbn. by apply map_Forall_delete.
Qed.

Lemma hmap_ok_add_all values tb :
  Forall hashable values → hmap_ok tb → hmap_ok (add_all values tb).
Proof.
  intros Hv. revert tb. induction Hv as [|v values Hv _ IH]; intros tb Htb.
  - done.
  - cbn. apply IH. by apply hmap_ok_t_assign.
Qed.

Lemma hmap_ok_delete_all values tb :
  hmap_ok tb → hmap_ok (delete_all values tb).
Proof.
  revert tb. induction values as [|v values IH]; intros tb Htb; [done|].
  cbn. apply IH. by apply hmap_ok_t_delete.
Qed.

(** In such a table a key that equals itself is a key of the table
    exactly when it has an entry, and a lookup finds exactly the keys that
    equal themselves. *)
Lemma hmap_ok_elem_of tb k :
  hmap_ok tb → key_eq_self k = true →
  k ∈ elems_of tb ↔ is_Some (entries tb !! k).
Proof.
  intros [_ Hs] Hk. rewrite elems_of_alt, elem_of_union, elem_of_dom.
  split; [intros [?|Hin]|by left]; [done|]. exfalso.
  apply elem_of_list_to_set, list_elem_of_fmap in Hin as ([k' b] & -> & Hin).
  rewrite Forall_forall in Hs. destruct (Hs _ Hin) as (_ & _ & Hne). cbn in *.
  congruence.
Qed.

Lemma hmap_ok_t_index tb k :
  hmap_ok tb →
  t_index k tb = (key_eq_self k && bool_decide (k ∈ elems_of tb)).
Proof.
  intros Htb. unfold t_index. destruct (key_eq_self k) eqn:Hk; [|done]. cbn.
  destruct (entries tb !! k) as [b|] eqn:Hb; cbn.
  - destruct Htb as [He Hs]. destruct (He _ _ Hb) as [-> _].
    symmetry. apply bool_decide_eq_true.
    apply (hmap_ok_elem_of tb k); [by split|done|by eexists].
  - symmetry. apply bool_decide_eq_false.
    rewrite (hmap_ok_elem_of tb k) by done. rewrite Hb. by intros [? ?].
Qed.

Lemma hmap_ok_keys_hashable tb :
  hmap_ok tb → Forall hashable (t_keys tb).
Proof.
  intros [He Hs]. unfold t_keys. apply Forall_app. split.
  - apply Forall_forall. intros k ([k' b] & -> & Hkb%elem_of_map_to_list)%list_elem_of_fmap.
    by destruct (He _ _ Hkb) as [_ [? _]].
  - apply Forall_forall. intros k ([k' b] & -> & Hkb)%list_elem_of_fmap.
    rewrite Forall_forall in Hs. by destruct (Hs _ Hkb) as (_ & ? & _).
Qed.


End Tables.

(** ** Running the operations *)

Section Runs.
Context {T : Type} `{Countable T} `{!GoZero T} `{!Comparable T}.
Implicit Types (h : heap T) (s : Set_ T) (r : mapref) (l : loc).
Implicit Types (tb : hmap T) (values : list T) (x v : T).

Lemma table_alter l f h :
  table (alter f l h) (Some l) =
    match h !! l with Some tb => f tb | None => ∅ end.
Proof. unfold table. rewrite lookup_alter_eq. by destruct (h !! l). Qed.

Lemma table_alter_ne l l' f h :
  l ≠ l' → table (alter f l h) (Some l') = table h (Some l').
Proof. intros Hne. unfold table. by rewrite lookup_alter_ne. Qed.

(** A store keeps the table of every reference other than the one that
    is written through. *)
Lemma table_alter_other l f h r :
  r ≠ Some l → table (alter f l h) r = table h r.
Proof.
  intros Hr. destruct r as [l'|]; [|done].
  apply table_alter_ne. by intros ->.
Qed.

Lemma table_make h r :
  table (<[fresh (dom h) := ∅]> h) r = table h r.
Proof.
  destruct r as [l|]; [|done]. unfold table.
  destruct (decide (fresh (dom h) = l)) as [<-|Hne].
  - rewrite lookup_insert_eq.
    by rewrite (not_elem_of_dom_1 h (fresh (dom h)) (is_fresh (dom h))).
  - by rewrite lookup_insert_ne.
Qed.

Lemma first_panic_cons v values :
  first_panic (v :: values) =
    match key_panic v with
    | Some ty => Some ty
    | None => first_panic values
    end.
Proof. unfold first_panic. cbn. by destruct (key_panic v). Qed.

Lemma first_panic_None values :
  first_panic values = None ↔ Forall hashable values.
Proof.
  induction values as [|v values IH]; [done|].
  rewrite first_panic_cons, Forall_cons. unfold hashable at 1.
  destruct (key_panic v); [|by rewrite IH; intuition].
  split; [done|]. by intros [? _].
Qed.

Lemma first_panic_hashable values :
  Forall hashable values → first_panic values = None.
Proof. apply first_panic_None. Qed.

Lemma hashed_cons v values :
  hashed (v :: values) =
    match key_panic v with
    | Some _ => []
    | None => v :: hashed values
    end.
Proof. reflexivity. Qed.

Lemma hashed_hashable values : Forall hashable (hashed values).
Proof.
  induction values as [|v values IH]; [done|]. rewrite hashed_cons.
  destruct (key_panic v) eqn:Hv; [done|]. by apply Forall_cons.
Qed.

Lemma hashed_all values : first_panic values = None → hashed values = values.
Proof.
  induction values as [|v values IH]; [done|].
  rewrite first_panic_cons, hashed_cons.
  destruct (key_panic v); [done|]. intros Hp. by rewrite IH.
Qed.

Lemma first_panic_Some values ty :
  first_panic values = Some ty → ¬ Forall hashable values.
Proof. intros Hty Hv%first_panic_None. congruence. Qed.

Lemma Empty_run h :
  Empty h = Ok (mkSet (T:=T) (Some (fresh (dom h)))) (<[fresh (dom h) := ∅]> h).
Proof. reflexivity. Qed.

Lemma Clear_run s h : Clear s h = Ok () (<[fresh (dom h) := ∅]> h).
Proof. reflexivity. Qed.

Lemma Contains_run s x h :
  Contains s x h =
    match key_panic x with
    | Some ty => Panic (unhashable_msg ty) h
    | None => Ok (t_index x (table h (m s))) h
    end.
Proof. reflexivity. Qed.

(** [Append] on a set with a non-nil map: it panics at the first value
    that cannot be hashed, having assigned those before it, and otherwise
    assigns them all. *)
Lemma Append_run s l values h :
  m s = Some l →
  Append s values h =
    match first_panic values with
    | Some ty => Panic (unhashable_msg ty) (alter (add_all (hashed values)) l h)
    | None => Ok () (alter (add_all values) l h)
    end.
Proof.
  intros Hm. revert h. induction values as [|v values IH]; intros h.
  - cbn. unfold mret, M_ret, ret. f_equal. symmetry. by apply alter_id.
  - rewrite first_panic_cons, hashed_cons. cbn [Append].
    unfold mbind, M_bind, bind, map_assign. rewrite Hm.
    destruct (key_panic v) as [ty|].
    { f_equal. symmetry. by apply alter_id. }
    rewrite IH.
    destruct (first_panic values) as [ty|]; f_equal; by rewrite alter_alter_eq.
Qed.

(** [Append] of at least one value on a nil map panics at the first
    assignment, before any key is hashed. *)
Lemma Append_nil s v values h :
  m s = None → Append s (v :: values) h = Panic nil_map_msg h.
Proof. intros Hm. cbn. unfold mbind, M_bind, bind, map_assign. by rewrite Hm. Qed.

(** [Delete]: it panics at the first value that cannot be hashed, having
    deleted those before it, and otherwise deletes them all. *)
Lemma Delete_run s values h :
  Delete s values h =
    match first_panic values with
    | Some ty =>
        Panic (unhashable_msg ty)
          match m s with
          | Some l => alter (delete_all (hashed values)) l h
          | None => h
          end
    | None => Ok () match m s with
                    | Some l => alter (delete_all values) l h
                    | None => h
                    end
    end.
Proof.
  revert h. induction values as [|v values IH]; intros h.
  - cbn. unfold mret, M_ret, ret. f_equal.
    destruct (m s); [|done]. symmetry. by apply alter_id.
  - rewrite first_panic_cons, hashed_cons. cbn [Delete].
    unfold mbind, M_bind, bind, map_delete.
    destruct (key_panic v) as [ty|].
    { f_equal. destruct (m s); [|done]. symmetry. by apply alter_id. }
    destruct (m s) as [l|] eqn:Hm; rewrite IH;
      destruct (first_panic values) as [ty|]; try done;
      f_equal; by rewrite alter_alter_eq.
Qed.

Lemma Of_run values h :
  Of values h =
    match first_panic values with
    | Some ty =>
        Panic (unhashable_msg ty)
          (<[fresh (dom h) := add_all (hashed values) ∅]> h)
    | None => Ok (mkSet (Some (fresh (dom h))))
                 (<[fresh (dom h) := add_all values ∅]> h)
    end.
Proof.
  unfold Of, mbind, M_bind, bind. rewrite Empty_run.
  rewrite (Append_run _ (fresh (dom h))) by done.
  destruct (first_panic values) as [ty|]; by rewrite alter_insert_eq.
Qed.

Lemma Append_one s l x h :
  m s = Some l → key_panic x = None →
  Append s [x] h = Ok () (alter (t_assign x true) l h).
Proof.
  intros Hm Hx. rewrite (Append_run s l) by done.
  by rewrite first_panic_cons, Hx.
Qed.

Lemma Delete_one s x h :
  key_panic x = None →
  Delete s [x] h =
    Ok () match m s with
          | Some l => alter (t_delete x) l h
          | None => h
          end.
Proof. intros Hx. by rewrite Delete_run, first_panic_cons, Hx. Qed.

Lemma foldl_snoc_app (init ks : list T) :
  foldl (λ values t, values ++ [t]) init ks = init ++ ks.
Proof.
  revert init. induction ks as [|k ks IH]; intros init; cbn.
  - by rewrite (right_id_L [] (++)).
  - by rewrite IH, <-(assoc_L (++)).
Qed.

(** [Slice] returns [len(s.m)] zero values followed by the keys. *)
Lemma Slice_run `{!MapRange T} s h :
  Slice s h =
    Ok (replicate (t_len (table h (m s))) go_zero ++ range_keys (table h (m s))) h.
Proof.
  unfold Slice, mbind, M_bind, bind, map_len, map_range, mret, M_ret, ret.
  by rewrite foldl_snoc_app.
Qed.

Lemma range_keys_elems `{!MapRange T} h s :
  list_to_set (range_keys (table h (m s))) = elems h s.
Proof. unfold elems, elems_of. by rewrite range_keys_perm. Qed.

Lemma UnmarshalJSON_run `{!JSON T} s data h :
  UnmarshalJSON s data h =
    let h1 := <[fresh (dom h) := ∅]> h in
    match json_Unmarshal data with
    | Failure err => Ok (Some err) h1
    | Success values =>
        match Append s values h1 with
        | Ok _ h2 => Ok None h2
        | Panic msg h2 => Panic msg h2
        end
    end.
Proof.
  unfold UnmarshalJSON, mbind, M_bind, bind. rewrite Clear_run. cbn zeta.
  by destruct (json_Unmarshal data).
Qed.

(** A set with a key holds a map that is in the store. *)
Lemma elem_of_elems_live h s x : x ∈ elems h s → live h s.
Proof.
  unfold elems, live. destruct (m s) as [l|]; cbn [table].
  - destruct (h !! l) as [tb|] eqn:Hl; cbn; [by eexists|].
    by rewrite elems_of_empty, elem_of_empty.
  - by rewrite elems_of_empty, elem_of_empty.
Qed.

Lemma live_inv h s : live h s → ∃ l tb, m s = Some l ∧ h !! l = Some tb.
Proof.
  unfold live. destruct (m s) as [l|]; [|done]. intros [tb Hl]. by exists l, tb.
Qed.

Lemma table_live h s l tb :
  m s = Some l → h !! l = Some tb → table h (m s) = tb.
Proof. intros -> Hl. cbn. by rewrite Hl. Qed.

End Runs.

(** ** The store invariant *)

Section Invariant.
Context {T : Type} `{Countable T} `{!GoZero T} `{!Comparable T} `{!JSON T}.
Implicit Types (h : heap T) (s : Set_ T) (l : loc).
Implicit Types (tb : hmap T) (values : list T).

Lemma store_ok_make h : store_ok h → store_ok (<[fresh (dom h) := ∅]> h).
Proof. intros Hh. apply map_Forall_insert_2; [apply hmap_ok_empty|done]. Qed.

Lemma store_ok_alter f l h :
  (∀ tb, hmap_ok tb → hmap_ok (f tb)) → store_ok h → store_ok (alter f l h).
Proof.
  intros Hf Hh l' tb [[<- (tb' & Hl & ->)]|[_ Hl]]%lookup_alter_Some.
  - apply Hf. exact (Hh _ _ Hl).
  - exact (Hh _ _ Hl).
Qed.

Lemma store_ok_table h r : store_ok h → hmap_ok (table h r).
Proof.
  intros Hh. destruct r as [l|]; cbn; [|apply hmap_ok_empty].
  destruct (h !! l) as [tb|] eqn:Hl; cbn; [|apply hmap_ok_empty].
  exact (Hh _ _ Hl).
Qed.

Lemma store_ok_Append s values h h' :
  store_ok h → left_by (Append s values h) h' → store_ok h'.
Proof.
  intros Hh. destruct (m s) as [l|] eqn:Hm.
  - rewrite (Append_run s l) by done.
    destruct (first_panic values) as [ty|] eqn:Hv; cbn; intros ->.
    + apply store_ok_alter; [|done]. intros tb.
      apply hmap_ok_add_all, hashed_hashable.
    + apply first_panic_None in Hv.
      apply store_ok_alter; [|done]. intros tb. by apply hmap_ok_add_all.
  - destruct values as [|v values]; [by intros ->|].
    rewrite Append_nil by done. by intros ->.
Qed.

Lemma left_by_bind {A B} (c : M T A) (k : A → M T B) h h' :
  left_by ((c ≫= k) h) h' →
  match c h with
  | Ok a h1 => left_by (k a h1) h'
  | Panic _ h1 => h' = h1
  end.
Proof. unfold mbind, M_bind, bind. by destruct (c h). Qed.

Lemma store_ok_exec c h h' :
  store_ok h → left_by (exec c h) h' → store_ok h'.
Proof.
  intros Hh. destruct c as [|values|s values|s values|s|s data]; cbn [exec].
  - cbn. intros ->. by apply store_ok_make.
  - intros Hl%left_by_bind. rewrite Of_run in Hl.
    destruct (first_panic values) as [ty|] eqn:Hv; cbn in Hl; subst h'.
    + apply map_Forall_insert_2; [|done].
      apply hmap_ok_add_all; [apply hashed_hashable|apply hmap_ok_empty].
    + apply first_panic_None in Hv. apply map_Forall_insert_2; [|done].
      apply hmap_ok_add_all; [done|apply hmap_ok_empty].
  - by apply store_ok_Append.
  - rewrite Delete_run.
    destruct (first_panic values) as [ty|]; cbn; intros ->;
      (destruct (m s); [|done]);
      (apply store_ok_alter; [|done]); intros tb; apply hmap_ok_delete_all.
  - cbn. intros ->. by apply store_ok_make.
  - intros Hl%left_by_bind. rewrite UnmarshalJSON_run in Hl. cbn zeta in Hl.
    destruct (json_Unmarshal data) as [values|err].
    + apply (store_ok_Append s values (<[fresh (dom h) := ∅]> h));
        [by apply store_ok_make|].
      by destruct (Append s values _).
    + cbn in Hl. subst h'. by apply store_ok_make.
Qed.

(** In every store a client can produce, every table is as [hmap_ok]
    says: the package writes no flag but [true], no key gets in without
    being hashed, and the field [m] is unexported. *)
Lemma reachable_store_ok h : reachable h → store_ok h.
Proof.
  induction 1 as [|h c h' _ IH Hstep|h c msg h' _ IH Hstep].
  - apply map_Forall_empty.
  - apply (store_ok_exec c h h' IH). by rewrite Hstep.
  - apply (store_ok_exec c h h' IH). by rewrite Hstep.
Qed.

End Invariant.

(** ** What the operations guarantee *)

Section Guarantees.
Context {T : Type} `{Countable T} `{!GoZero T} `{!Comparable T}.
Implicit Types (h : heap T) (s t : Set_ T) (l : loc).
Implicit Types (tb : hmap T) (values : list T) (x : T).

Lemma Len_add_all values :
  t_len (add_all values (∅ : hmap T)) = go_distinct values.
Proof.
  rewrite add_all_alt. unfold t_len, go_distinct.
  change (strays (∅ : hmap T)) with (@nil (T * bool)).
  change (entries (∅ : hmap T)) with (∅ : gmap T bool).
  cbn [entries strays app]. rewrite length_fmap. f_equal.
  rewrite <-(size_dom (D:=gset T)), dom_insert_all, dom_empty_L.
  by rewrite (left_id_L ∅ (∪)), size_list_to_set_remove_dups.
Qed.

(** C7, as the code has it: for every sequence [values] of values that
    can be hashed, [Of(values...)] returns a set whose elements are the
    members of [values] and whose [Len] is the number of values that [==]
    tells apart, each value that does not equal itself counting once per
    occurrence; when a value cannot be hashed, [Of] panics. *)
Theorem Len_Of values h :
  (Forall hashable values →
   ∃ s h', Of values h = Ok s h' ∧
           elems h' s = list_to_set values ∧
           Len s h' = Ok (go_distinct values) h') ∧
  (∀ ty, first_panic values = Some ty →
         ∃ h', Of values h = Panic (unhashable_msg ty) h').
Proof.
  rewrite Of_run. split.
  - intros Hv%first_panic_hashable. rewrite Hv.
    eexists _, _. split; [reflexivity|].
    unfold elems, Len, map_len, table. cbn [m]. rewrite lookup_insert_eq. cbn.
    split.
    + by rewrite elems_of_add_all, elems_of_empty, (left_id_L ∅ (∪)).
    + by rewrite Len_add_all.
  - intros ty ->. by eexists.
Qed.

(** C6, as the code has it: in every store a client of the package can
    produce, for every set [s] and value [x], [s.Contains(x)] panics when
    [x] cannot be hashed; otherwise it returns, with [true] when [x]
    equals itself and is an element of [s], and with [false] when [x] is
    not an element or does not equal itself. *)
Theorem Contains_spec `{!JSON T} h s x :
  reachable h →
  match key_panic x with
  | Some ty => Contains s x h = Panic (unhashable_msg ty) h
  | None =>
      Contains s x h = Ok (key_eq_self x && bool_decide (x ∈ elems h s)) h
  end.
Proof.
  intros Hh%reachable_store_ok. rewrite Contains_run.
  destruct (key_panic x) as [ty|]; [done|]. f_equal.
  apply hmap_ok_t_index. by apply store_ok_table.
Qed.

(** C9, as the code has it: for every set [s] and value [x],
    [s.Delete(x)] panics when [x] cannot be hashed; otherwise it returns
    and [s.Contains(x)] is [false] afterwards, and when [x] is not an
    element of [s] the call changes nothing, so [Len] is unchanged. *)
Theorem Delete_spec h s x :
  match key_panic x with
  | Some ty => Delete s [x] h = Panic (unhashable_msg ty) h
  | None =>
      ∃ h', Delete s [x] h = Ok () h' ∧
            Contains s x h' = Ok false h' ∧
            (x ∉ elems h s → h' = h ∧ Len s h' = Len s h)
  end.
Proof.
  rewrite Delete_run, first_panic_cons, hashed_cons.
  destruct (key_panic x) as [ty|] eqn:Hx.
  { f_equal. destruct (m s); [|done]. by apply alter_id. }
  change (first_panic []) with (@None string).
  eexists. split; [reflexivity|]. rewrite Contains_run, Hx.
  unfold elems. destruct (m s) as [l|] eqn:Hm.
  - rewrite table_alter. cbn [table].
    destruct (h !! l) as [tb|] eqn:Hl; cbn [default].
    + change (delete_all [x] tb) with (t_delete x tb). unfold id.
      split; [by rewrite (t_index_t_delete x tb)|].
      intros Hx'.
      assert (alter (delete_all [x]) l h = h) as Heq; [|by rewrite Heq].
      apply alter_id. intros tb' Hl'.
      assert (tb' = tb) as -> by congruence. by apply t_delete_absent.
    + split; [by rewrite t_index_empty|].
      intros _. by rewrite alter_id'.
  - cbn [table]. split; [by rewrite t_index_empty|done].
Qed.


(** C10, as the code has it: a set returned by [Empty] or by [Of] holds a
    non-nil map, and [Append] on it returns without panic for every list
    of values that can be hashed, in every later store; [Append] of at
    least one value on the zero-value [Set[T]{}], whose map is nil, panics
    at the map write; and on a set with a non-nil map [Append] panics when
    a value cannot be hashed. *)
Theorem Append_on_constructed :
  (∀ h, ∃ s h1, Empty h = Ok s h1 ∧ m s ≠ None ∧
                ∀ h2 values, Forall hashable values →
                             ∃ h3, Append s values h2 = Ok () h3) ∧
  (∀ h values0, Forall hashable values0 →
                ∃ s h1, Of values0 h = Ok s h1 ∧ m s ≠ None ∧
                ∀ h2 values, Forall hashable values →
                             ∃ h3, Append s values h2 = Ok () h3) ∧
  (∀ h x values, Append zero_Set (x :: values) h = Panic nil_map_msg h) ∧
  (∀ h, ∃ values, Append zero_Set values h = Panic nil_map_msg h) ∧
  (∀ h s values ty, m s ≠ None → first_panic values = Some ty →
                    ∃ h', Append s values h = Panic (unhashable_msg ty) h').
Proof.
  split_and!.
  - intros h. rewrite Empty_run. eexists _, _. split_and!; [done..|].
    intros h2 values Hv%first_panic_hashable.
    rewrite (Append_run _ (fresh (dom h))), Hv by done. by eexists.
  - intros h values0 Hv0%first_panic_hashable. rewrite Of_run, Hv0.
    eexists _, _. split_and!; [done..|].
    intros h2 values Hv%first_panic_hashable.
    rewrite (Append_run _ (fresh (dom h))), Hv by done. by eexists.
  - intros h x values. by apply Append_nil.
  - intros h. exists [go_zero]. by apply Append_nil.
  - intros h s values ty Hm Hty. destruct (m s) as [l|] eqn:Hl; [|done].
    rewrite (Append_run s l), Hty by done. by eexists.
Qed.

(** [Clear] returns, and leaves every set, its receiver included, with
    the table it had: the new table is reachable from no set. *)
Lemma Clear_keeps s h :
  ∃ h', Clear s h = Ok () h' ∧ ∀ s', table h' (m s') = table h (m s').
Proof.
  rewrite Clear_run. eexists. split; [reflexivity|].
  intros s'. apply table_make.
Qed.

(** So [Len] after [Clear] is what it was before. *)
Lemma Len_after_Clear s h :
  ∃ n h', Len s h = Ok n h ∧ Clear s h = Ok () h' ∧ Len s h' = Ok n h'.
Proof.
  destruct (Clear_keeps s h) as (h' & Hrun & Hkeep).
  eexists _, h'. split_and!; [reflexivity|done|].
  unfold Len, map_len. by rewrite Hkeep.
Qed.

(** [Len], [Contains] of a key that can be hashed, [Slice] and
    [MarshalJSON] return and leave the store as it is. *)
Lemma reads_keep_store `{!MapRange T} `{!JSON T} s x h :
  (∃ n, Len s h = Ok n h) ∧
  (hashable x → ∃ b, Contains s x h = Ok b h) ∧
  (∃ values, Slice s h = Ok values h) ∧
  (∃ res, MarshalJSON s h = Ok res h).
Proof.
  split_and!; [by eexists| | |].
  - intros Hx. rewrite Contains_run, Hx. by eexists.
  - eexists. apply Slice_run.
  - eexists. unfold MarshalJSON, mbind, M_bind, bind. by rewrite Slice_run.
Qed.

Lemma Slice_length `{!MapRange T} s h :
  ∃ n values, Len s h = Ok n h ∧ Slice s h = Ok values h ∧
              length values = 2 * n.
Proof.
  rewrite Slice_run. eexists _, _. split_and!; [reflexivity..|].
  rewrite length_app, length_replicate, range_keys_perm, length_t_keys. lia.
Qed.

(** X15: when the input does not parse, [UnmarshalJSON] returns the error
    of [json.Unmarshal] and every set, the receiver included, has the table
    it had before the call. *)
Lemma UnmarshalJSON_failure_keeps `{!JSON T} s data err h :
  json_Unmarshal data = Failure err →
  ∃ h', UnmarshalJSON s data h = Ok (Some err) h' ∧
        ∀ s', table h' (m s') = table h (m s').
Proof.
  intros Hd. rewrite UnmarshalJSON_run, Hd. cbn zeta.
  eexists. split; [reflexivity|]. intros s'. apply table_make.
Qed.

(** When the input parses to values that can be hashed, they are added to
    the elements that the set already had. *)
Lemma UnmarshalJSON_success_adds `{!JSON T} s data values h :
  live h s → json_Unmarshal data = Success values → Forall hashable values →
  ∃ h', UnmarshalJSON s data h = Ok None h' ∧
        elems h' s = elems h s ∪ list_to_set values ∧
        ∀ t, m t ≠ m s → table h' (m t) = table h (m t).
Proof.
  intros (l & tb & Hm & Hl)%live_inv Hd Hv%first_panic_hashable.
  rewrite UnmarshalJSON_run, Hd. cbn zeta.
  rewrite (Append_run s l), Hv by done. eexists. split; [reflexivity|].
  assert (fresh (dom h) ≠ l) as Hne.
  { intros <-. apply (is_fresh (dom h)). apply elem_of_dom. by exists tb. }
  split.
  - unfold elems. rewrite Hm, table_alter. cbn [table].
    rewrite lookup_insert_ne, Hl by done. cbn. apply elems_of_add_all.
  - intros t Ht. rewrite table_alter_other by congruence. apply table_make.
Qed.

Lemma list_to_set_replicate (n : nat) x :
  list_to_set (C:=gset T) (replicate n x) = if decide (n = 0) then ∅ else {[x]}.
Proof.
  apply set_eq. intros y.
  rewrite elem_of_list_to_set, elem_of_replicate.
  destruct (decide (n = 0)) as [->|Hn].
  - rewrite elem_of_empty. by split; [intros [_ ?]|].
  - rewrite elem_of_singleton. by split; [intros [? _]|].
Qed.

(** X18: what a round trip through JSON gives in a store that the
    package has filled, when [encoding/json] reads back the slice it
    wrote: the target [t] gets the elements of [s] and, unless [s] is
    empty, the zero value of [T] as well, on top of the elements that [t]
    had. *)
Lemma roundtrip_elems `{!MapRange T} `{!JSON T} s t h values data :
  reachable h →
  live h t →
  Slice s h = Ok values h →
  json_Marshal values = Success data →
  json_Unmarshal data = Success values →
  MarshalJSON s h = Ok (Success data) h ∧
  ∃ h', UnmarshalJSON t data h = Ok None h' ∧
        elems h' t =
          elems h t ∪ elems h s ∪
          (if decide (elems h s = ∅) then ∅ else {[go_zero]}).
Proof.
  intros Hh%reachable_store_ok Ht Hs Hm Hu. split.
  { unfold MarshalJSON, mbind, M_bind, bind. by rewrite Hs, <-Hm. }
  rewrite Slice_run in Hs. injection Hs as <-.
  assert (Forall hashable
    (replicate (t_len (table h (m s))) go_zero ++ range_keys (table h (m s))))
    as Hv.
  { apply Forall_app. split.
    - apply Forall_replicate, go_zero_hashable.
    - rewrite range_keys_perm. by apply hmap_ok_keys_hashable, store_ok_table. }
  destruct (UnmarshalJSON_success_adds t data _ h Ht Hu Hv) as (h' & Hrun & He & _).
  exists h'. split; [done|]. rewrite He, <-(assoc_L (∪)). f_equal.
  rewrite list_to_set_app_L, list_to_set_replicate, range_keys_elems.
  rewrite (comm_L (∪)). f_equal. unfold elems.
  destruct (decide (t_len (table h (m s)) = 0)) as [Hz|Hnz],
    (decide (elems_of (table h (m s)) = ∅)) as [He0|Hne0]; try done.
  - by apply t_len_0 in Hz.
  - by apply t_len_0 in He0.
Qed.

(** C5, as the code has it.  On a set whose map is non-nil,
    [UnmarshalJSON] returns an error exactly when [json.Unmarshal]
    rejects the input, and the error is the one [json.Unmarshal] returned;
    when the input parses it returns [nil], unless one of the parsed
    values cannot be hashed, and then it panics.  [Empty], [Len], [Clear]
    and [Slice] return on every set; [Contains], [Delete] and [Of] return
    exactly when every key they are given can be hashed; [Append] returns
    exactly when every value can be hashed and the map is non-nil or there
    is no value, and on the zero-value set it panics as soon as there is a
    value; [MarshalJSON] returns what [json.Marshal] returns on the slice
    of the set. *)
Theorem failure_modes `{!MapRange T} `{!JSON T} h s data :
  (m s ≠ None →
   match json_Unmarshal data with
   | Failure err => ∃ h', UnmarshalJSON s data h = Ok (Some err) h'
   | Success values =>
       match first_panic values with
       | None => ∃ h', UnmarshalJSON s data h = Ok None h'
       | Some ty => ∃ h', UnmarshalJSON s data h = Panic (unhashable_msg ty) h'
       end
   end) ∧
  returns Empty h ∧
  returns (Len s) h ∧
  returns (Clear s) h ∧
  returns (Slice s) h ∧
  (∀ x, returns (Contains s x) h ↔ hashable x) ∧
  (∀ values, returns (Delete s values) h ↔ Forall hashable values) ∧
  (∀ values, returns (Of values) h ↔ Forall hashable values) ∧
  (∀ values, returns (Append s values) h ↔
             Forall hashable values ∧ (m s ≠ None ∨ values = [])) ∧
  (∀ x values, Append zero_Set (x :: values) h = Panic nil_map_msg h) ∧
  (∃ values, Slice s h = Ok values h ∧
             MarshalJSON s h = Ok (json_Marshal values) h).
Proof.
  split_and!.
  - intros Hm. destruct (m s) as [l|] eqn:Hl; [|done].
    rewrite UnmarshalJSON_run. cbn zeta.
    destruct (json_Unmarshal data) as [values|err]; [|by eexists].
    rewrite (Append_run s l) by done.
    destruct (first_panic values) as [ty|]; by eexists.
  - by eexists _, _.
  - by eexists _, _.
  - by eexists _, _.
  - unfold returns. rewrite Slice_run. by eexists _, _.
  - intros x. unfold returns, hashable. rewrite Contains_run.
    destruct (key_panic x) as [ty|]; split; try done.
    + by intros (b & h' & ?).
    + intros _. by eexists _, _.
  - intros values. rewrite <-first_panic_None. unfold returns.
    rewrite Delete_run. destruct (first_panic values) as [ty|]; split; try done.
    + by intros (b & h' & ?).
    + intros _. by eexists _, _.
  - intros values. rewrite <-first_panic_None. unfold returns.
    rewrite Of_run. destruct (first_panic values) as [ty|]; split; try done.
    + by intros (b & h' & ?).
    + intros _. by eexists _, _.
  - intros values. rewrite <-first_panic_None. unfold returns.
    destruct (m s) as [l|] eqn:Hl.
    + rewrite (Append_run s l) by done.
      destruct (first_panic values) as [ty|]; split.
      * by intros (b & h' & ?).
      * by intros [? _].
      * intros _. split; [done|by left].
      * intros _. by eexists _, _.
    + destruct values as [|v values].
      * split; [intros _; split; [done|by right]|]. intros _. by eexists _, _.
      * rewrite Append_nil by done. split; [by intros (b & h' & ?)|].
        by intros [_ [?|?]].
  - intros x values. by apply Append_nil.
  - eexists. split; [apply Slice_run|].
    unfold MarshalJSON, mbind, M_bind, bind. by rewrite Slice_run.
Qed.

End Guarantees.

(** ** How the operations compose *)

Section Composition.
Context {T : Type} `{Countable T} `{!GoZero T} `{!Comparable T}.
Implicit Types (h : heap T) (s t : Set_ T) (l : loc).
Implicit Types (tb : hmap T) (mp : gmap T bool) (values : list T) (x k : T).


Lemma insert_all_twice values mp :
  insert_all values (insert_all values mp) = insert_all values mp.
Proof.
  apply map_eq. intros k. rewrite !lookup_insert_all.
  by destruct (decide (k ∈ values)).
Qed.

Lemma remove_all_twice values mp :
  remove_all values (remove_all values mp) = remove_all values mp.
Proof.
  apply map_eq. intros k. rewrite !lookup_remove_all.
  by destruct (decide (k ∈ values)).
Qed.


Lemma ordinary_hashable values : Forall ordinary values → Forall hashable values.
Proof. intros Hv. eapply Forall_impl; [exact Hv|]. by intros v [? _]. Qed.

(** In a table that the package has filled, deleting values that equal
    themselves removes them from the keys. *)
Lemma elems_of_delete_all values tb :
  hmap_ok tb → Forall (λ v, key_eq_self v = true) values →
  elems_of (delete_all values tb) = elems_of tb ∖ list_to_set values.
Proof.
  intros [_ Hs] Hv. destruct (selfs_all values Hv) as [Hselfs _].
  rewrite delete_all_alt, Hselfs, !elems_of_alt. cbn [entries strays].
  rewrite dom_remove_all. apply set_eq. intros y.
  rewrite !elem_of_union, !elem_of_difference, !elem_of_union.
  split; [intros [[? ?]|Hy]|intros [[?|?] ?]]; auto.
  split; [by right|]. intros Hin%elem_of_list_to_set.
  rewrite Forall_forall in Hv. specialize (Hv _ Hin).
  apply elem_of_list_to_set, list_elem_of_fmap in Hy as ([k b] & -> & Hy).
  rewrite Forall_forall in Hs. destruct (Hs _ Hy) as (_ & _ & Hne). cbn in *.
  congruence.
Qed.

(** X1: for every set [s] with a non-nil map and every list [values] of
    values that can be hashed, [s.Append(values...)] returns, the elements
    of [s] afterwards are the old elements together with the members of
    [values], and every set that holds another map keeps its table. *)
Theorem Append_adds_all h s values :
  live h s → Forall hashable values →
  ∃ h', Append s values h = Ok () h' ∧
        elems h' s = elems h s ∪ list_to_set values ∧
        ∀ t, m t ≠ m s → table h' (m t) = table h (m t).
Proof.
  intros (l & tb & Hm & Hl)%live_inv Hv%first_panic_hashable.
  rewrite (Append_run s l), Hv by done. eexists. split; [reflexivity|]. split.
  - unfold elems. rewrite Hm, table_alter. cbn [table]. rewrite Hl. cbn.
    apply elems_of_add_all.
  - intros t Ht. apply table_alter_other. congruence.
Qed.

(** X2: in every store a client can produce, for every set [s], nil map
    included, and every list [values] of values that can be hashed and
    equal themselves, [s.Delete(values...)] returns, the elements of [s]
    afterwards are the old elements without the members of [values], and
    every set that holds another map keeps its table. *)
Theorem Delete_removes_all `{!JSON T} h s values :
  reachable h → Forall ordinary values →
  ∃ h', Delete s values h = Ok () h' ∧
        elems h' s = elems h s ∖ list_to_set values ∧
        ∀ t, m t ≠ m s → table h' (m t) = table h (m t).
Proof.
  intros Hh%reachable_store_ok Hv.
  pose proof (first_panic_hashable _ (ordinary_hashable _ Hv)) as Hp.
  assert (Forall (λ v, key_eq_self v = true) values) as Hself.
  { eapply Forall_impl; [exact Hv|]. by intros v [_ ?]. }
  rewrite Delete_run, Hp. eexists. split; [reflexivity|].
  unfold elems. destruct (m s) as [l|] eqn:Hm.
  - split.
    + rewrite table_alter. cbn [table].
      destruct (h !! l) as [tb|] eqn:Hl; cbn.
      * apply elems_of_delete_all; [exact (Hh _ _ Hl)|done].
      * by rewrite elems_of_empty, empty_difference_L.
    + intros t Ht. apply table_alter_other. congruence.
  - split; [|done]. cbn. by rewrite elems_of_empty, empty_difference_L.
Qed.

(** X3: appending a second time values that equal themselves changes
    nothing: running [s.Append(values...)] twice gives the store, or the
    panic, that running it once gives. *)
Theorem Append_idempotent h s values :
  Forall (λ v, key_eq_self v = true) values →
  (Append s values;; Append s values) h = Append s values h.
Proof.
  intros Hv. destruct (selfs_all values Hv) as [Hselfs Hnans].
  unfold mbind, M_bind, bind. destruct (m s) as [l|] eqn:Hm.
  - rewrite (Append_run s l) by done.
    destruct (first_panic values) as [ty|] eqn:Hp; [done|].
    rewrite (Append_run s l), Hp by done.
    f_equal. rewrite alter_alter_eq. apply alter_ext. intros tb _. cbn.
    rewrite !add_all_alt, Hselfs, Hnans. cbn [entries strays fmap list_fmap].
    by rewrite insert_all_twice, !(right_id_L [] (++)).
  - destruct values as [|v values]; [done|]. by rewrite Append_nil.
Qed.

(** X4: deleting the same values a second time changes nothing. *)
Theorem Delete_idempotent h s values :
  (Delete s values;; Delete s values) h = Delete s values h.
Proof.
  unfold mbind, M_bind, bind. rewrite Delete_run.
  destruct (first_panic values) as [ty|] eqn:Hp; [done|].
  rewrite Delete_run, Hp. destruct (m s) as [l|]; [|done].
  f_equal. rewrite alter_alter_eq. apply alter_ext. intros tb _. cbn.
  rewrite !delete_all_alt. cbn [entries strays].
  by rewrite remove_all_twice.
Qed.


(** X6: on a set with a non-nil map, appending a value that can be
    hashed, equals itself and is not an element, and deleting it again,
    restores the store. *)
Theorem Append_then_Delete h s x :
  live h s → ordinary x → x ∉ elems h s →
  (Append s [x];; Delete s [x]) h = Ok () h.
Proof.
  intros (l & tb & Hm & Hl)%live_inv [Hx Hself] Hnin.
  unfold elems in Hnin. rewrite (table_live h s l tb Hm Hl) in Hnin.
  rewrite elems_of_alt, not_elem_of_union in Hnin.
  destruct Hnin as [Hnin%not_elem_of_dom _].
  unfold mbind, M_bind, bind. rewrite (Append_one s l) by done.
  rewrite Delete_one, Hm by done.
  f_equal. rewrite alter_alter_eq. apply alter_id. intros tb' Hl'. cbn.
  assert (tb' = tb) as -> by congruence.
  unfold t_delete, t_assign. rewrite Hself. cbn.
  destruct tb as [mp st]. cbn in *. f_equal. by apply delete_insert_id.
Qed.


(** X8: on a set with a non-nil map, appending a value that can be hashed
    and is not an element, or does not equal itself, makes [Len] one
    larger. *)
Theorem Len_Append_new h s x :
  live h s → hashable x → (key_eq_self x = true → x ∉ elems h s) →
  ∃ n h', Len s h = Ok n h ∧
          Append s [x] h = Ok () h' ∧
          Len s h' = Ok (S n) h'.
Proof.
  intros (l & tb & Hm & Hl)%live_inv Hx Hnin.
  unfold elems in Hnin. rewrite (table_live h s l tb Hm Hl) in Hnin.
  rewrite (Append_one s l) by done.
  eexists _, _. split_and!; [reflexivity..|].
  unfold Len, map_len. rewrite Hm, table_alter. cbn [table]. rewrite Hl. cbn.
  f_equal. destruct (key_eq_self x) eqn:Hself.
  - specialize (Hnin eq_refl).
    rewrite elems_of_alt, not_elem_of_union in Hnin.
    destruct Hnin as [Hnin%not_elem_of_dom _].
    unfold t_len, t_assign. rewrite Hself. cbn.
    by rewrite map_size_insert_None.
  - by apply t_len_t_assign_stray.
Qed.

(** X9: in every store a client can produce, deleting an element that
    equals itself makes [Len] one smaller. *)
Theorem Len_Delete_present `{!JSON T} h s x :
  reachable h → key_eq_self x = true → x ∈ elems h s →
  ∃ n h', Len s h = Ok (S n) h ∧
          Delete s [x] h = Ok () h' ∧
          Len s h' = Ok n h'.
Proof.
  intros Hh%reachable_store_ok Hself Hin.
  destruct (live_inv h s (elem_of_elems_live h s x Hin)) as (l & tb & Hm & Hl).
  unfold elems in Hin. rewrite (table_live h s l tb Hm Hl) in Hin.
  pose proof (Hh _ _ Hl) as Htb.
  destruct (proj1 (hmap_ok_elem_of tb x Htb Hself) Hin) as [b Hb].
  destruct Htb as [He _]. destruct (He _ _ Hb) as [-> [Hx _]].
  rewrite Delete_one, Hm by done.
  exists (pred (size (entries tb)) + length (strays tb)). eexists.
  split_and!; [|reflexivity|].
  - unfold Len, map_len. rewrite (table_live h s l tb Hm Hl). f_equal.
    unfold t_len. rewrite <-(insert_delete_id (entries tb) x true Hb) at 1.
    rewrite map_size_insert_None by apply lookup_delete_eq.
    by rewrite map_size_delete_Some by eauto.
  - unfold Len, map_len. rewrite Hm, table_alter. cbn [table].
    rewrite Hl. cbn. f_equal. unfold t_len, t_delete. rewrite Hself. cbn.
    by rewrite map_size_delete_Some by eauto.
Qed.

(** X10: [Empty] does what [Of] of no values does, and [Of] of values
    that can be hashed returns a live set whose map is a new one: the set
    was not live before, and every set that holds another map keeps the
    table it had. *)
Theorem Of_is_fresh h values :
  Empty h = Of [] h ∧
  (Forall hashable values →
   ∃ s h', Of values h = Ok s h' ∧
           live h' s ∧
           ¬ live h s ∧
           ∀ t, table h' (m t) = table h (m t) ∨ m t = m s).
Proof.
  split; [by rewrite Of_run|]. intros Hv%first_panic_hashable.
  rewrite Of_run, Hv. eexists _, _. split; [reflexivity|].
  pose proof (is_fresh (dom h)) as Hfresh.
  unfold live. cbn [m]. split_and!.
  - rewrite lookup_insert_eq. by eexists.
  - intros Hl. by apply Hfresh, elem_of_dom.
  - intros [[l|]]; cbn [m]; [|by left].
    destruct (decide (fresh (dom h) = l)) as [->|Hne]; [by right|].
    left. unfold table. by rewrite lookup_insert_ne.
Qed.

(** X11: a live set stays live: no call of the package removes a table
    from the store. *)
Theorem live_preserved `{!JSON T} h c h' s :
  live h s → exec c h = Ok () h' → live h' s.
Proof.
  unfold live. destruct (m s) as [l|]; [|done]. intros Hl.
  assert (∀ h0, is_Some (h0 !! l) →
            is_Some (<[fresh (dom h0) := ∅]> h0 !! l)) as Hmake.
  { intros h0 Hl0. apply lookup_insert_is_Some'. by right. }
  assert (∀ h0 t values h1, is_Some (h0 !! l) →
            Append t values h0 = Ok () h1 → is_Some (h1 !! l)) as Happ.
  { intros h0 t values h1 Hl0. destruct (m t) as [l'|] eqn:Hm.
    - rewrite (Append_run t l') by done.
      destruct (first_panic values) as [ty|]; [done|]. intros [= <-].
      by apply lookup_alter_is_Some.
    - destruct values as [|v values]; [by intros [= <-]|].
      by rewrite Append_nil. }
  destruct c as [|values|t values|t values|t|t data]; cbn.
  - intros [= <-]. by apply Hmake.
  - unfold mbind, M_bind, bind. rewrite Of_run.
    destruct (first_panic values) as [ty|]; [done|]. intros [= <-].
    apply lookup_insert_is_Some'. by right.
  - by apply Happ.
  - rewrite Delete_run. destruct (first_panic values) as [ty|]; [done|].
    intros [= <-]. destruct (m t); [|done].
    by apply lookup_alter_is_Some.
  - intros [= <-]. by apply Hmake.
  - unfold mbind, M_bind, bind. rewrite UnmarshalJSON_run. cbn zeta.
    destruct (json_Unmarshal data) as [values|err].
    + destruct (Append t values _) as [[] h1|msg] eqn:Hrun; [|done].
      intros [= <-]. eapply Happ; [|exact Hrun]. by apply Hmake.
    + intros [= <-]. by apply Hmake.
Qed.

(** X12: [Clear] returns and changes no set: every set, the receiver
    included, has afterwards the elements and the [Len] it had before, and
    [Contains] returns or panics on it as it did before. *)
Theorem Clear_changes_no_set h s :
  ∃ h', Clear s h = Ok () h' ∧
        ∀ t x, elems h' t = elems h t ∧
               (∃ n, Len t h = Ok n h ∧ Len t h' = Ok n h') ∧
               match Contains t x h with
               | Ok b _ => Contains t x h' = Ok b h'
               | Panic msg _ => Contains t x h' = Panic msg h'
               end.
Proof.
  rewrite Clear_run. eexists. split; [reflexivity|]. intros t x.
  unfold elems, Len, map_len. rewrite !Contains_run, !table_make.
  split_and!; [done|by eexists|]. by destruct (key_panic x).
Qed.

(** X13: [Slice] returns as many zero values as the map has entries,
    which is [Len], followed by the key of each entry, once: twice [Len]
    values in all.  When no key of the map fails to equal itself, the keys
    are the elements of the set, without repetition. *)
Theorem Slice_shape `{!MapRange T} h s :
  ∃ n ks, Len s h = Ok n h ∧
          Slice s h = Ok (replicate n go_zero ++ ks) h ∧
          ks ≡ₚ keys h s ∧
          (∀ x, x ∈ ks ↔ x ∈ elems h s) ∧
          (strays (table h (m s)) = [] → NoDup ks ∧ n = size (elems h s)) ∧
          length (replicate n go_zero ++ ks) = 2 * n.
Proof.
  rewrite Slice_run. eexists _, (range_keys (table h (m s))).
  split_and!; [reflexivity..| | | |].
  - apply range_keys_perm.
  - intros x. by rewrite <-range_keys_elems, elem_of_list_to_set.
  - intros Hs. unfold elems. rewrite elems_of_alt, range_keys_perm.
    unfold t_keys, t_len. rewrite Hs. cbn.
    rewrite !(right_id_L [] (++)), (right_id_L ∅ (∪)). split.
    + apply NoDup_fst_map_to_list.
    + rewrite (size_dom (D:=gset T)). lia.
  - rewrite length_app, length_replicate, range_keys_perm, length_t_keys. lia.
Qed.

(** X14: the slice that [Slice] returns is a listing of the elements of
    the set exactly when the set is empty (then it is the empty slice). *)
Theorem Slice_exact_iff_empty `{!MapRange T} h s :
  ∃ values, Slice s h = Ok values h ∧
            (values ≡ₚ elements (elems h s) ↔ elems h s = ∅) ∧
            (elems h s = ∅ → values = []).
Proof.
  rewrite Slice_run. eexists. split; [reflexivity|].
  assert (elems h s = ∅ →
    replicate (t_len (table h (m s))) go_zero ++ range_keys (table h (m s)) = [])
    as Hempty.
  { intros He. pose proof (proj2 (t_len_0 _) He) as Hlen. rewrite Hlen. cbn.
    apply Permutation_nil_r. rewrite range_keys_perm.
    apply Permutation_nil_r, nil_length_inv. by rewrite length_t_keys. }
  split; [split|done].
  - intros Hperm%Permutation_length.
    rewrite length_app, length_replicate, range_keys_perm in Hperm.
    rewrite length_t_keys in Hperm.
    change (length (elements (elems h s))) with (size (elems h s)) in Hperm.
    pose proof (size_elems_of_le (table h (m s))) as Hle.
    apply t_len_0. unfold elems in Hperm. lia.
  - intros He. rewrite (Hempty He), He. by rewrite elements_empty.
Qed.

(** X16: on a set with a non-nil map, when the input parses,
    [UnmarshalJSON] panics if a parsed value cannot be hashed; otherwise it
    returns [nil] and adds the parsed values to the elements the set had,
    and every set that holds another map keeps its table. *)
Theorem UnmarshalJSON_adds_parsed `{!JSON T} h s data values :
  live h s → json_Unmarshal data = Success values →
  match first_panic values with
  | Some ty => ∃ h', UnmarshalJSON s data h = Panic (unhashable_msg ty) h'
  | None =>
      ∃ h', UnmarshalJSON s data h = Ok None h' ∧
            elems h' s = elems h s ∪ list_to_set values ∧
            ∀ t, m t ≠ m s → table h' (m t) = table h (m t)
  end.
Proof.
  intros Hlive Hd. destruct (first_panic values) as [ty|] eqn:Hp.
  - destruct (live_inv h s Hlive) as (l & tb & Hm & Hl).
    rewrite UnmarshalJSON_run, Hd. cbn zeta.
    rewrite (Append_run s l), Hp by done. by eexists.
  - apply first_panic_None in Hp.
    exact (UnmarshalJSON_success_adds s data values h Hlive Hd Hp).
Qed.

(** X17: unmarshalling input that parses to values that can be hashed
    into a set that [Empty] has just returned gives a set whose elements
    are the parsed values, with as many entries as [==] tells values
    apart. *)
Theorem UnmarshalJSON_into_Empty `{!JSON T} h data values :
  json_Unmarshal data = Success values → Forall hashable values →
  ∃ t h', (t ← Empty; err ← UnmarshalJSON t data; mret (t, err)) h =
            Ok (t, None) h' ∧
          elems h' t = list_to_set values ∧
          Len t h' = Ok (go_distinct values) h'.
Proof.
  intros Hd Hv%first_panic_hashable.
  unfold mbind at 1, M_bind, bind. rewrite Empty_run.
  set (l := fresh (dom h)). set (h0 := <[l := ∅]> h).
  exists (mkSet (Some l)). unfold mbind, M_bind, bind.
  rewrite UnmarshalJSON_run, Hd. cbn zeta.
  rewrite (Append_run _ l), Hv by done. eexists. split; [reflexivity|].
  assert (table (alter (add_all values) l (<[fresh (dom h0) := ∅]> h0))
            (Some l) = add_all values ∅) as Htb.
  { assert (fresh (dom h0) ≠ l) as Hne.
    { intros Heq. apply (is_fresh (dom h0)). rewrite Heq. unfold h0.
      rewrite dom_insert_L. apply elem_of_union_l. by apply elem_of_singleton. }
    rewrite table_alter, lookup_insert_ne by done.
    unfold h0. by rewrite lookup_insert_eq. }
  unfold elems, Len, map_len. cbn [m]. rewrite Htb. split.
  - by rewrite elems_of_add_all, elems_of_empty, (left_id_L ∅ (∪)).
  - by rewrite Len_add_all.
Qed.

(** X19: the zero-value set, whose map is nil, behaves as an empty set
    for every operation that does not assign, on keys that can be hashed:
    [Len] is 0, [Contains] is [false], [Delete] and an [Append] of no
    values change nothing, [Slice] is empty and [MarshalJSON] marshals the
    empty slice. *)
Theorem zero_Set_is_empty `{!MapRange T} `{!JSON T} h x values :
  Len zero_Set h = Ok 0 h ∧
  (hashable x → Contains zero_Set x h = Ok false h) ∧
  (Forall hashable values → Delete zero_Set values h = Ok () h) ∧
  Append zero_Set [] h = Ok () h ∧
  Slice zero_Set h = Ok [] h ∧
  MarshalJSON zero_Set h = Ok (json_Marshal []) h.
Proof.
  assert (Slice (T:=T) zero_Set h = Ok [] h) as Hslice.
  { rewrite Slice_run. cbn [zero_Set m table]. rewrite t_len_empty. cbn.
    f_equal. apply Permutation_nil_r. by rewrite range_keys_perm. }
  split_and!; [| | |done|done|].
  - unfold Len, map_len. cbn [zero_Set m table]. by rewrite t_len_empty.
  - intros Hx. rewrite Contains_run, Hx. cbn [zero_Set m table].
    by rewrite t_index_empty.
  - intros Hv%first_panic_hashable. by rewrite Delete_run, Hv.
  - unfold MarshalJSON, mbind, M_bind, bind. by rewrite Hslice.
Qed.

(** X20: for values and a key that can be hashed, from every store,
    [Of(values...).Contains(x)] is [true] exactly when [x] equals itself
    and is one of [values]. *)
Theorem Contains_Of h values x :
  Forall hashable values → hashable x →
  (s ← Of values; Contains s x) h =
    Ok (key_eq_self x && bool_decide (x ∈ values))
       (<[fresh (dom h) := add_all values ∅]> h).
Proof.
  intros Hv%first_panic_hashable Hx.
  unfold mbind, M_bind, bind. rewrite Of_run, Hv, Contains_run, Hx.
  cbn [m table]. rewrite lookup_insert_eq. cbn [default]. unfold id. f_equal.
  unfold t_index. destruct (key_eq_self x) eqn:Hself; [|done]. cbn.
  rewrite add_all_alt. cbn [entries].
  change (entries (∅ : hmap T)) with (∅ : gmap T bool).
  rewrite lookup_insert_all, lookup_empty.
  destruct (decide (x ∈ selfs values)) as [Hin|Hnin]; cbn.
  - symmetry. apply bool_decide_eq_true.
    by apply list_elem_of_filter in Hin as [_ ?].
  - symmetry. apply bool_decide_eq_false. intros Hin. apply Hnin.
    by apply list_elem_of_filter.
Qed.

End Composition.

(** * The package at work on sets of [int] and of [any] *)

Import set_int set_any.
Local Open Scope Z_scope.

Example marshal_ints : json_Marshal [1; -2; 30] = Success "[1,-2,30]".
Proof. reflexivity. Qed.

Example unmarshal_ints :
  json_Unmarshal " [ 1 , -22,3, null, 0 ] " = Success [1; -22; 3; 0; 0].
Proof. reflexivity. Qed.

Example unmarshal_rejects :
  Forall (λ data, json_Unmarshal data = Failure unmarshal_error)
    ["[1,2,3"; "[01]"; "[1,]"; "[1] 2"; "[1.5]"; "[1 2]"; "[-]"; "1";
     "[9223372036854775808]"].
Proof. repeat constructor. Qed.

Example Of_1223 : Of [1; 2; 2; 3] ∅ = Ok s1 h123.
Proof. vm_compute. reflexivity. Qed.

Example Of_1_Empty : (s ← Of [1]; t ← Empty; mret (s, t)) ∅ = Ok (s1, s2) h_two.
Proof. vm_compute. reflexivity. Qed.

(** A NaN is stored once for each time it is appended, and never found. *)
Example Of_NaN_NaN_1 :
  (s ← Of [any_NaN; any_NaN; any_int 1];
   n ← Len s;
   values ← Slice s;
   b ← Contains s any_NaN;
   mret (n, values, b)) ∅ =
    Ok (3%nat, [any_nil; any_nil; any_nil; any_int 1; any_NaN; any_NaN], false)
       {[ 1%positive :=
            Hmap {[ any_int 1 := true ]} [(any_NaN, true); (any_NaN, true)] ]}.
Proof. vm_compute. reflexivity. Qed.

Lemma reachable_h123 : reachable h123.
Proof.
  apply (reachable_step ∅ (call_Of [1; 2; 2; 3])); [apply reachable_init|].
  vm_compute. reflexivity.
Qed.

Lemma reachable_h_two : reachable h_two.
Proof.
  apply (reachable_step {[ 1%positive := regular {[ 1 := true ]} ]} call_Empty).
  - apply (reachable_step ∅ (call_Of [1])); [apply reachable_init|].
    vm_compute. reflexivity.
  - vm_compute. reflexivity.
Qed.


Lemma live_h123 : live h123 s1.
Proof. vm_compute. eauto. Qed.

Lemma live_h_two_s1 : live h_two s1.
Proof. vm_compute. eauto. Qed.

Lemma live_h_two_s2 : live h_two s2.
Proof. vm_compute. eauto. Qed.

Lemma s2_not_s1 : m s2 ≠ m s1.
Proof. discriminate. Qed.

Lemma elems_h123 : elems h123 s1 = {[ 1; 2; 3 ]}.
Proof. vm_compute. reflexivity. Qed.

Lemma in_h123 : 2 ∈ elems h123 s1.
Proof. apply (bool_decide_unpack _). vm_compute. exact I. Qed.

Lemma not_in_h123 : 4 ∉ elems h123 s1.
Proof. apply (bool_decide_unpack _). vm_compute. exact I. Qed.

Lemma ints_hashable (values : list Z) : Forall hashable values.
Proof. by apply Forall_forall. Qed.

Lemma ints_ordinary (values : list Z) : Forall ordinary values.
Proof. by apply Forall_forall. Qed.

Lemma ints_self (values : list Z) : Forall (λ v, key_eq_self v = true) values.
Proof. by apply Forall_forall. Qed.

(** ** The operations at concrete inputs *)

(** C3 at [s := Of(1); s.Clear(); s.Len()]: [Len] returns 1, not 0.  The
    table that [Clear] made is the second one of the store; the set still
    refers to the first. *)
Theorem Clear_does_not_empty :
  (s ← Of [1]; Clear s;; Len s) ∅ =
    Ok 1%nat {[ 1%positive := regular {[ 1 := true ]}; 2%positive := ∅ ]}.
Proof. vm_compute. reflexivity. Qed.

(** C1 at [s := Of(1, 2); err := s.UnmarshalJSON("[1,2,3")]: the call
    returns the parse error and [s] still has its two elements. *)
Theorem UnmarshalJSON_failure_does_not_empty :
  (s ← Of [1; 2];
   err ← UnmarshalJSON s "[1,2,3";
   n ← Len s;
   b ← Contains s 1;
   mret (err, n, b)) ∅ =
    Ok (Some unmarshal_error, 2%nat, true)
       {[ 1%positive := regular {[ 1 := true; 2 := true ]}; 2%positive := ∅ ]}.
Proof. vm_compute. reflexivity. Qed.

(** When the input parses, the elements the set had are kept as well. *)
Example UnmarshalJSON_success_does_not_empty :
  (s ← Of [1; 2];
   err ← UnmarshalJSON s "[3]";
   n ← Len s;
   b ← Contains s 1;
   mret (err, n, b)) ∅ =
    Ok (None, 3%nat, true)
       {[ 1%positive := regular {[ 1 := true; 2 := true; 3 := true ]};
          2%positive := ∅ ]}.
Proof. vm_compute. reflexivity. Qed.

(** C2 at [s := Empty(); s.Append(7, 8); s.Delete(7); s.Slice()]: the
    slice is [[0, 8]], one zero value before the one element. *)
Theorem Slice_has_leading_zeros :
  (s ← Empty; Append s [7; 8];; Delete s [7];; Slice s) ∅ =
    Ok [0; 8] {[ 1%positive := regular {[ 8 := true ]} ]}.
Proof. vm_compute. reflexivity. Qed.

(** C4 at [s := Of(1)], unmarshalling [s.MarshalJSON()] into a new
    [Empty()] set [t]: the bytes are ["[0,1]"], and [t] contains 0, which
    [s] does not. *)
Theorem roundtrip_adds_zero :
  (s ← Of [1];
   data ← MarshalJSON s;
   t ← Empty;
   err ← match data with
         | Success data => UnmarshalJSON t data
         | Failure err => mret (Some err)
         end;
   in_s ← Contains s 0;
   in_t ← Contains t 0;
   n ← Len t;
   mret (data, err, in_s, in_t, n)) ∅ =
    Ok (Success "[0,1]", None, false, true, 2%nat)
       {[ 1%positive := regular {[ 1 := true ]};
          2%positive := regular {[ 0 := true; 1 := true ]};
          3%positive := ∅ ]}.
Proof. vm_compute. reflexivity. Qed.

(** C5 fails: [UnmarshalJSON] is not the only operation that can fail.
    On the zero-value set of [int], [Append] of one value panics; on a set
    of [any] that [Empty] returned, [Contains], [Delete] and [Append]
    panic when given a [[]int], and so does [Of]. *)
Lemma other_operations_panic :
  Append zero_Set [1] (∅ : heap Z) = Panic "assignment to entry in nil map" ∅ ∧
  ¬ returns (Append zero_Set [1]) (∅ : heap Z) ∧
  (s ← Empty; Contains s (any_ints [1])) ∅ =
    Panic "runtime error: hash of unhashable type []int" {[ 1%positive := ∅ ]} ∧
  (s ← Empty; Delete s [any_ints [1]]) ∅ =
    Panic "runtime error: hash of unhashable type []int" {[ 1%positive := ∅ ]} ∧
  (s ← Empty; Append s [any_ints [1]]) ∅ =
    Panic "runtime error: hash of unhashable type []int" {[ 1%positive := ∅ ]} ∧
  Of [any_ints [1]] ∅ =
    Panic "runtime error: hash of unhashable type []int" {[ 1%positive := ∅ ]}.
Proof.
  split_and!; [reflexivity| |vm_compute; reflexivity..].
  intros (a & h' & Hrun). discriminate Hrun.
Qed.

(** C6 fails at a NaN and at a slice: after [s := Of(NaN)] the set has
    one element, [Slice] lists it, and [s.Contains(NaN)] is [false]; and
    [Contains] of a [[]int], which is in no set, panics. *)
Lemma Contains_misses_NaN :
  (s ← Of [any_NaN];
   n ← Len s;
   values ← Slice s;
   b ← Contains s any_NaN;
   mret (n, values, b)) ∅ =
    Ok (1%nat, [any_nil; any_NaN], false)
       {[ 1%positive := Hmap ∅ [(any_NaN, true)] ]} ∧
  (s ← Empty; Contains s (any_ints [1])) ∅ =
    Panic "runtime error: hash of unhashable type []int" {[ 1%positive := ∅ ]}.
Proof. split; vm_compute; reflexivity. Qed.

(** C7 fails at a slice: [Of] of a [[]int] panics, so it returns no set
    whose [Len] could be the number of distinct values. *)
Lemma Of_panics_unhashable :
  Of [any_int 1; any_ints [1]] ∅ =
    Panic "runtime error: hash of unhashable type []int"
      {[ 1%positive := regular {[ any_int 1 := true ]} ]} ∧
  ¬ returns (s ← Of [any_int 1; any_ints [1]]; Len s) (∅ : heap any).
Proof.
  split; [vm_compute; reflexivity|]. intros (a & h' & Hrun). discriminate Hrun.
Qed.


(** C9 fails at a slice: [Delete] of a [[]int], which is in no set,
    panics, on a set that [Empty] returned and on the zero-value set. *)
Lemma Delete_panics_unhashable :
  (s ← Empty; Delete s [any_ints [1]]) ∅ =
    Panic "runtime error: hash of unhashable type []int" {[ 1%positive := ∅ ]} ∧
  Delete zero_Set [any_ints [1]] ∅ =
    Panic "runtime error: hash of unhashable type []int" ∅.
Proof. split; vm_compute; reflexivity. Qed.

(** C10 fails at a slice: on a set that [Empty] returned, and on one that
    [Of] returned, [Append] of a [[]int] panics. *)
Lemma Append_panics_unhashable :
  (s ← Empty; Append s [any_ints [1]]) ∅ =
    Panic "runtime error: hash of unhashable type []int" {[ 1%positive := ∅ ]} ∧
  (s ← Of [any_int 1]; Append s [any_int 2; any_ints []]) ∅ =
    Panic "runtime error: hash of unhashable type []int"
      {[ 1%positive := regular {[ any_int 1 := true; any_int 2 := true ]} ]}.
Proof. split; vm_compute; reflexivity. Qed.

(** ** The guarantees at concrete inputs *)

Lemma Len_Of_witness :
  Forall hashable [any_int 1; any_NaN; any_int 1; any_NaN] ∧
  ∃ s h', Of [any_int 1; any_NaN; any_int 1; any_NaN] ∅ = Ok s h' ∧
          elems h' s = list_to_set [any_int 1; any_NaN; any_int 1; any_NaN] ∧
          Len s h' = Ok 3%nat h'.
Proof.
  assert (Forall hashable [any_int 1; any_NaN; any_int 1; any_NaN]) as Hv
    by (repeat constructor).
  split; [exact Hv|].
  exact (proj1 (Len_Of [any_int 1; any_NaN; any_int 1; any_NaN] ∅) Hv).
Defined.

Lemma Contains_spec_witness :
  reachable h123 ∧
  Contains s1 2 h123 = Ok true h123 ∧
  Contains s1 4 h123 = Ok false h123.
Proof.
  split; [exact reachable_h123|].
  split; [exact (Contains_spec h123 s1 2 reachable_h123)|
          exact (Contains_spec h123 s1 4 reachable_h123)].
Defined.


Lemma Delete_spec_witness :
  (4 ∉ elems h123 s1) ∧
  ∃ h', Delete s1 [4] h123 = Ok () h' ∧
        Contains s1 4 h' = Ok false h' ∧
        h' = h123 ∧ Len s1 h' = Len s1 h123.
Proof.
  split; [exact not_in_h123|].
  destruct (Delete_spec h123 s1 4) as (h' & Hrun & Hc & Hn).
  destruct (Hn not_in_h123) as [Hh' Hlen].
  exists h'. split_and!; [exact Hrun|exact Hc|exact Hh'|exact Hlen].
Defined.

Lemma Append_on_constructed_witness :
  Forall hashable [1; 2] ∧ Forall hashable [3; 3] ∧
  ∃ s h1, Of [1; 2] h123 = Ok s h1 ∧ m s ≠ None ∧
          ∃ h3, Append s [3; 3] h1 = Ok () h3.
Proof.
  split_and!; [exact (ints_hashable _)..|].
  destruct (Append_on_constructed (T:=Z)) as (_ & HOf & _).
  destruct (HOf h123 [1; 2] (ints_hashable _)) as (s & h1 & Hrun & Hm & Happ).
  exists s, h1. split_and!; [exact Hrun|exact Hm|].
  exact (Happ h1 [3; 3] (ints_hashable _)).
Defined.

Lemma failure_modes_witness :
  m s1 ≠ None ∧
  json_Unmarshal "[4,5]" = Success [4; 5] ∧
  (∃ h', UnmarshalJSON s1 "[4,5]" h123 = Ok None h') ∧
  returns (Append s1 [4; 5]) h123.
Proof.
  assert (m s1 ≠ None) as Hm by discriminate.
  split_and!; [exact Hm|reflexivity| |].
  - pose proof (failure_modes h123 s1 "[4,5]") as [Hu _]. exact (Hu Hm).
  - pose proof (failure_modes h123 s1 "[4,5]")
      as (_ & _ & _ & _ & _ & _ & _ & _ & Ha & _).
    apply Ha. split; [exact (ints_hashable _)|by left].
Defined.

(** ** The composition properties at concrete inputs *)

Lemma Append_adds_all_witness :
  live h_two s1 ∧ Forall hashable [3; 4] ∧ m s2 ≠ m s1 ∧
  ∃ h', Append s1 [3; 4] h_two = Ok () h' ∧
        elems h' s1 = elems h_two s1 ∪ list_to_set [3; 4] ∧
        table h' (m s2) = table h_two (m s2).
Proof.
  split_and!; [exact live_h_two_s1|exact (ints_hashable _)|exact s2_not_s1|].
  destruct (Append_adds_all h_two s1 [3; 4] live_h_two_s1 (ints_hashable _))
    as (h' & Hrun & He & Hf).
  exists h'. split_and!; [exact Hrun|exact He|exact (Hf s2 s2_not_s1)].
Defined.

Lemma Delete_removes_all_witness :
  reachable h_two ∧ Forall ordinary [1; 5] ∧ m s2 ≠ m s1 ∧
  ∃ h', Delete s1 [1; 5] h_two = Ok () h' ∧
        elems h' s1 = elems h_two s1 ∖ list_to_set [1; 5] ∧
        table h' (m s2) = table h_two (m s2).
Proof.
  split_and!; [exact reachable_h_two|exact (ints_ordinary _)|exact s2_not_s1|].
  destruct (Delete_removes_all h_two s1 [1; 5] reachable_h_two (ints_ordinary _))
    as (h' & Hrun & He & Hf).
  exists h'. split_and!; [exact Hrun|exact He|exact (Hf s2 s2_not_s1)].
Defined.

Lemma Append_idempotent_witness :
  Forall (λ v, key_eq_self v = true) [1; 2] ∧
  (Append s1 [1; 2];; Append s1 [1; 2]) h_two = Append s1 [1; 2] h_two.
Proof.
  split; [exact (ints_self _)|].
  exact (Append_idempotent h_two s1 [1; 2] (ints_self _)).
Defined.


Lemma Append_then_Delete_witness :
  live h123 s1 ∧ ordinary 4 ∧ (4 ∉ elems h123 s1) ∧
  (Append s1 [4];; Delete s1 [4]) h123 = Ok () h123.
Proof.
  assert (ordinary 4) as Hx by done.
  split_and!; [exact live_h123|exact Hx|exact not_in_h123|].
  exact (Append_then_Delete h123 s1 4 live_h123 Hx not_in_h123).
Defined.


Lemma Len_Append_new_witness :
  live h123 s1 ∧ hashable 4 ∧ (4 ∉ elems h123 s1) ∧
  ∃ n h', Len s1 h123 = Ok n h123 ∧
          Append s1 [4] h123 = Ok () h' ∧
          Len s1 h' = Ok (S n) h'.
Proof.
  assert (hashable 4) as Hx by done.
  split_and!; [exact live_h123|exact Hx|exact not_in_h123|].
  exact (Len_Append_new h123 s1 4 live_h123 Hx (λ _, not_in_h123)).
Defined.

Lemma Len_Delete_present_witness :
  reachable h123 ∧ key_eq_self 2 = true ∧ 2 ∈ elems h123 s1 ∧
  ∃ n h', Len s1 h123 = Ok (S n) h123 ∧
          Delete s1 [2] h123 = Ok () h' ∧
          Len s1 h' = Ok n h'.
Proof.
  split_and!; [exact reachable_h123|reflexivity|exact in_h123|].
  exact (Len_Delete_present h123 s1 2 reachable_h123 eq_refl in_h123).
Defined.

Lemma Of_is_fresh_witness :
  Forall hashable [7; 8] ∧
  ∃ s h', Of [7; 8] h_two = Ok s h' ∧ live h' s ∧ ¬ live h_two s.
Proof.
  split; [exact (ints_hashable _)|].
  destruct (proj2 (Of_is_fresh h_two [7; 8]) (ints_hashable _))
    as (s & h' & Hrun & Hl & Hn & _).
  exists s, h'. split_and!; [exact Hrun|exact Hl|exact Hn].
Defined.

Lemma live_preserved_witness :
  live h_two s1 ∧
  exec (call_UnmarshalJSON s2 "[7]") h_two =
    Ok () (<[3%positive := ∅]> (<[2%positive := regular {[ 7 := true ]}]> h_two)) ∧
  live (<[3%positive := ∅]> (<[2%positive := regular {[ 7 := true ]}]> h_two)) s1.
Proof.
  assert (exec (call_UnmarshalJSON s2 "[7]") h_two =
    Ok () (<[3%positive := ∅]> (<[2%positive := regular {[ 7 := true ]}]> h_two)))
    as Hrun.
  { vm_compute. reflexivity. }
  split_and!; [exact live_h_two_s1|exact Hrun|].
  exact (live_preserved h_two _ _ s1 live_h_two_s1 Hrun).
Defined.

Lemma Slice_shape_witness :
  strays (table h123 (m s1)) = [] ∧
  ∃ n ks, Len s1 h123 = Ok n h123 ∧
          Slice s1 h123 = Ok (replicate n go_zero ++ ks) h123 ∧
          NoDup ks ∧ n = size (elems h123 s1).
Proof.
  assert (strays (table h123 (m s1)) = []) as Hs by reflexivity.
  split; [exact Hs|].
  destruct (Slice_shape h123 s1) as (n & ks & Hlen & Hrun & _ & _ & Hreg & _).
  exists n, ks. destruct (Hreg Hs) as [Hnd Hn].
  split_and!; [exact Hlen|exact Hrun|exact Hnd|exact Hn].
Defined.

Lemma Slice_exact_iff_empty_witness :
  elems h_two s2 = ∅ ∧
  ∃ values, Slice s2 h_two = Ok values h_two ∧ values = [].
Proof.
  assert (elems h_two s2 = ∅) as He by (vm_compute; reflexivity).
  split; [exact He|].
  destruct (Slice_exact_iff_empty h_two s2) as (values & Hrun & _ & Hnil).
  exists values. split; [exact Hrun|exact (Hnil He)].
Defined.

Lemma UnmarshalJSON_failure_keeps_witness :
  json_Unmarshal "[1,2,3" = Failure unmarshal_error ∧
  ∃ h', UnmarshalJSON s1 "[1,2,3" h123 = Ok (Some unmarshal_error) h' ∧
        ∀ s' : Set_ Z, table h' (m s') = table h123 (m s').
Proof.
  assert (json_Unmarshal "[1,2,3" = Failure unmarshal_error) as Hd
    by reflexivity.
  split; [exact Hd|].
  exact (UnmarshalJSON_failure_keeps s1 "[1,2,3" unmarshal_error h123 Hd).
Defined.

Lemma UnmarshalJSON_adds_parsed_witness :
  live h_two s1 ∧ json_Unmarshal "[3, 3, 4]" = Success [3; 3; 4] ∧
  m s2 ≠ m s1 ∧
  ∃ h', UnmarshalJSON s1 "[3, 3, 4]" h_two = Ok None h' ∧
        elems h' s1 = elems h_two s1 ∪ list_to_set [3; 3; 4] ∧
        table h' (m s2) = table h_two (m s2).
Proof.
  assert (json_Unmarshal "[3, 3, 4]" = Success [3; 3; 4]) as Hd by reflexivity.
  split_and!; [exact live_h_two_s1|exact Hd|exact s2_not_s1|].
  destruct (UnmarshalJSON_adds_parsed h_two s1 _ _ live_h_two_s1 Hd)
    as (h' & Hrun & He & Hf).
  exists h'. split_and!; [exact Hrun|exact He|exact (Hf s2 s2_not_s1)].
Defined.

Lemma UnmarshalJSON_into_Empty_witness :
  json_Unmarshal "[3, 3, 4]" = Success [3; 3; 4] ∧
  Forall hashable [3; 3; 4] ∧
  ∃ t h', (t ← Empty; err ← UnmarshalJSON t "[3, 3, 4]"; mret (t, err)) h123 =
            Ok (t, None) h' ∧
          elems h' t = list_to_set [3; 3; 4] ∧
          Len t h' = Ok 2%nat h'.
Proof.
  assert (json_Unmarshal "[3, 3, 4]" = Success [3; 3; 4]) as Hd by reflexivity.
  split_and!; [exact Hd|exact (ints_hashable _)|].
  exact (UnmarshalJSON_into_Empty h123 _ _ Hd (ints_hashable _)).
Defined.

Lemma roundtrip_elems_witness :
  reachable h_two ∧
  live h_two s2 ∧
  Slice s1 h_two = Ok [0; 1] h_two ∧
  json_Marshal [0; 1] = Success "[0,1]" ∧
  json_Unmarshal "[0,1]" = Success [0; 1] ∧
  MarshalJSON s1 h_two = Ok (Success "[0,1]") h_two ∧
  ∃ h', UnmarshalJSON s2 "[0,1]" h_two = Ok None h' ∧
        elems h' s2 =
          elems h_two s2 ∪ elems h_two s1 ∪
          (if decide (elems h_two s1 = ∅) then ∅ else {[ 0 ]}).
Proof.
  assert (Slice s1 h_two = Ok [0; 1] h_two) as Hs by (vm_compute; reflexivity).
  assert (json_Marshal [0; 1] = Success "[0,1]") as Hm by reflexivity.
  assert (json_Unmarshal "[0,1]" = Success [0; 1]) as Hu by reflexivity.
  split_and!;
    [exact reachable_h_two|exact live_h_two_s2|exact Hs|exact Hm|exact Hu|..];
    apply (roundtrip_elems s1 s2 h_two [0; 1] "[0,1]"
             reachable_h_two live_h_two_s2 Hs Hm Hu).
Defined.

Lemma zero_Set_is_empty_witness :
  hashable 3 ∧ Forall hashable [1; 2] ∧
  Contains zero_Set 3 h123 = Ok false h123 ∧
  Delete zero_Set [1; 2] h123 = Ok () h123.
Proof.
  assert (hashable 3) as Hx by done.
  destruct (zero_Set_is_empty h123 3 [1; 2]) as (_ & Hc & Hd & _).
  split_and!; [exact Hx|exact (ints_hashable _)|exact (Hc Hx)|
               exact (Hd (ints_hashable _))].
Defined.

Lemma Contains_Of_witness :
  Forall hashable [any_int 1; any_NaN] ∧ hashable any_NaN ∧
  hashable (any_int 1) ∧
  (s ← Of [any_int 1; any_NaN]; Contains s any_NaN) ∅ =
    Ok false (<[fresh (dom (∅ : heap any)) := add_all [any_int 1; any_NaN] ∅]> ∅) ∧
  (s ← Of [any_int 1; any_NaN]; Contains s (any_int 1)) ∅ =
    Ok true (<[fresh (dom (∅ : heap any)) := add_all [any_int 1; any_NaN] ∅]> ∅).
Proof.
  assert (Forall hashable [any_int 1; any_NaN]) as Hv by (repeat constructor).
  assert (hashable any_NaN) as Hn by done.
  assert (hashable (any_int 1)) as Hi by done.
  split_and!; [exact Hv|exact Hn|exact Hi|..].
  - exact (Contains_Of ∅ _ any_NaN Hv Hn).
  - exact (Contains_Of ∅ _ (any_int 1) Hv Hi).
Defined.
